(** * compo-kit: the scaffolding CLI's directory reconciler and template renderer

    A shallow embedding of [src/cli/index.ts] and
    [src/cli/utils/renderTemplate.ts].  The code talks to the file system
    through [node:fs] and [node:path]; those calls are modelled over a tree
    of directories and regular files, as a small state-and-exception monad. *)

From Stdlib Require Import NArith.
From stdpp Require Import base tactics option list strings.

(** ** The file system behind [node:fs] *)

Module Fs.

Definition name := string.

(** A resolved path: the component names from the root downwards.  The
    code only ever extends a path by one directory entry name
    ([path.resolve(src, file)]) and asks for its last component
    ([path.basename]). *)
Definition path := list name.

(** A file system node; a directory lists its entries in the order
    [readdirSync] reports them. *)
#[warnings="-register-all"]
Inductive node :=
| File (content : string)
| Dir (entries : list (name * node)).

Inductive errno := ENOENT | ENOTDIR | EEXIST | ENOTEMPTY | EISDIR | EBUSY.

Inductive result (A : Type) :=
| Ok (a : A)
| Err (e : errno).
Arguments Ok {A} a.
Arguments Err {A} e.

(** The mutating system calls that succeeded, oldest first. *)
Inductive syscall :=
| Mkdir (p : path)
| Rmdir (p : path)
| Unlink (p : path).

Record world := World { root : node; trace : list syscall }.

(** *** Directory entries *)

Fixpoint find_entry (n : name) (es : list (name * node)) : option node :=
  match es with
  | [] => None
  | (m, c) :: es' => if String.eqb m n then Some c else find_entry n es'
  end.

Fixpoint alter_entry (n : name) (f : node -> node) (es : list (name * node))
  : list (name * node) :=
  match es with
  | [] => []
  | (m, c) :: es' =>
      if String.eqb m n then (m, f c) :: es' else (m, c) :: alter_entry n f es'
  end.

Fixpoint remove_entry (n : name) (es : list (name * node)) : list (name * node) :=
  match es with
  | [] => []
  | (m, c) :: es' => if String.eqb m n then es' else (m, c) :: remove_entry n es'
  end.

(** *** Path resolution *)

Fixpoint walk (p : path) (t : node) : result node :=
  match p with
  | [] => Ok t
  | n :: p' =>
      match t with
      | File _ => Err ENOTDIR
      | Dir es =>
          match find_entry n es with
          | Some c => walk p' c
          | None => Err ENOENT
          end
      end
  end.

Definition lookup (p : path) (t : node) : option node :=
  match walk p t with
  | Ok n => Some n
  | Err _ => None
  end.

Definition is_dir (t : node) : bool :=
  match t with Dir _ => true | File _ => false end.

(** *** Tree updates *)

(** [mkdir -p]: every missing component is created; an existing directory is
    left alone; a regular file on the way is an error. *)
Fixpoint mkdirp (p : path) (t : node) : result node :=
  match t with
  | File _ => match p with [] => Err EEXIST | _ :: _ => Err ENOTDIR end
  | Dir es =>
      match p with
      | [] => Ok t
      | n :: p' =>
          match find_entry n es with
          | Some c =>
              match mkdirp p' c with
              | Ok c' => Ok (Dir (alter_entry n (fun _ => c') es))
              | Err e => Err e
              end
          | None =>
              match mkdirp p' (Dir []) with
              | Ok c' => Ok (Dir (es ++ [(n, c')]))
              | Err e => Err e
              end
          end
      end
  end.

(** Drop the entry a path names from its parent directory. *)
Fixpoint remove (p : path) (t : node) : node :=
  match p, t with
  | [n], Dir es => Dir (remove_entry n es)
  | n :: p', Dir es => Dir (alter_entry n (remove p') es)
  | _, _ => t
  end.

(** *** The monad of file system programs

    A program transforms the world and either returns, throws, or is cut
    off when the recursion budget of the model is spent.  The world is
    returned in every case: what was done before an exception stays done. *)

Inductive outcome (A : Type) :=
| Done (a : A)
| Throw (e : errno)
| OutOfFuel.
Arguments Done {A} a.
Arguments Throw {A} e.
Arguments OutOfFuel {A}.

Definition io (A : Type) := world -> outcome A * world.

Definition ret {A} (a : A) : io A := fun w => (Done a, w).

Definition throw {A} (e : errno) : io A := fun w => (Throw e, w).

Definition out_of_fuel {A} : io A := fun w => (OutOfFuel, w).

Definition bind {A B} (m : io A) (k : A -> io B) : io B :=
  fun w =>
    match m w with
    | (Done a, w') => k a w'
    | (Throw e, w') => (Throw e, w')
    | (OutOfFuel, w') => (OutOfFuel, w')
    end.

Notation "'let*' x ':=' m 'in' k" := (bind m (fun x => k))
  (at level 10, x name, m at level 100, k at level 200).
Notation "m ;; k" := (bind m (fun _ => k))
  (at level 100, k at level 200, right associativity).

(** [for (const x of l) body(x)] *)
Fixpoint for_each {A} (l : list A) (body : A -> io unit) : io unit :=
  match l with
  | [] => ret tt
  | x :: l' => body x ;; for_each l' body
  end.

(** *** The [node:fs] calls the code makes *)

Record Stats := { isDirectory : bool }.

Definition statSync (p : path) : io Stats :=
  fun w =>
    match walk p (root w) with
    | Ok t => (Done {| isDirectory := is_dir t |}, w)
    | Err e => (Throw e, w)
    end.

(** Without symbolic links [lstat] is [stat]. *)
Definition lstatSync (p : path) : io Stats := statSync p.

Definition existsSync (p : path) : io bool :=
  fun w =>
    match walk p (root w) with
    | Ok _ => (Done true, w)
    | Err _ => (Done false, w)
    end.

Definition readdirSync (p : path) : io (list name) :=
  fun w =>
    match walk p (root w) with
    | Ok (Dir es) => (Done (map fst es), w)
    | Ok (File _) => (Throw ENOTDIR, w)
    | Err e => (Throw e, w)
    end.

(** [fs.mkdirSync(p, { recursive: true })] *)
Definition mkdirSync_recursive (p : path) : io unit :=
  fun w =>
    match mkdirp p (root w) with
    | Ok t => (Done tt, {| root := t; trace := trace w ++ [Mkdir p] |})
    | Err e => (Throw e, w)
    end.

(** A directory that still has an entry is refused, and so is the root. *)
Definition rmdirSync (p : path) : io unit :=
  fun w =>
    match walk p (root w) with
    | Err e => (Throw e, w)
    | Ok (File _) => (Throw ENOTDIR, w)
    | Ok (Dir es) =>
        if bool_decide (p = []) then (Throw EBUSY, w)
        else
          match es with
          | _ :: _ => (Throw ENOTEMPTY, w)
          | [] =>
              (Done tt,
               {| root := remove p (root w); trace := trace w ++ [Rmdir p] |})
          end
    end.

Definition unlinkSync (p : path) : io unit :=
  fun w =>
    match walk p (root w) with
    | Err e => (Throw e, w)
    | Ok (Dir _) => (Throw EISDIR, w)
    | Ok (File _) =>
        (Done tt, {| root := remove p (root w); trace := trace w ++ [Unlink p] |})
    end.

(** [path.basename]; the root has the empty base name. *)
Definition basename (p : path) : name := List.last p "".

(** [path.resolve(dir, file)] for a directory entry name [file]. *)
Definition resolve (dir : path) (file : name) : path := dir ++ [file].

End Fs.

Import Fs.

(** ** [src/cli/utils/renderTemplate.ts]

    [renderTemplate(src, dest)], lines 13-27.  The recursion of the code
    follows the tree it finds on disk, which it extends on the way; the
    model carries a budget, and a run that spends it is cut off. *)

Fixpoint renderTemplate (fuel : nat) (src dest : path) : io unit :=
  match fuel with
  | 0 => out_of_fuel
  | S fuel' =>
      let* stats := statSync src in
      if isDirectory stats then
        if String.eqb (basename src) "node_modules" then ret tt
        else
          mkdirSync_recursive dest ;;
          let* files := readdirSync src in
          for_each files (fun file =>
            renderTemplate fuel' (resolve src file) (resolve dest file))
      else ret tt
  end.

(** ** [src/cli/index.ts]

    [canSkipEmptying(dir)], lines 29-36. *)

Definition canSkipEmptying (dir : path) : io bool :=
  let* ex := existsSync dir in
  if negb ex then ret true
  else
    let* files := readdirSync dir in
    if Nat.eqb (length files) 0 then ret true
    else
      if Nat.eqb (length files) 1
         && match files with f :: _ => String.eqb f ".git" | [] => false end
      then ret true
      else ret false.

(** Modelled from the spec: [postOrderDirectoryTraverse], which [index.ts]
    imports from [./utils/directoryTraverse]; that file is not among the
    sources.  The spec asks for a post-order walk: everything below a
    directory is handed to the callbacks before the directory itself, in the
    order the listing gives, and the starting directory is emptied, not
    removed ([init] writes the manifest into it right afterwards). *)
Fixpoint postOrderDirectoryTraverse (fuel : nat) (dir : path)
    (dirCallback fileCallback : path -> io unit) : io unit :=
  match fuel with
  | 0 => out_of_fuel
  | S fuel' =>
      let* files := readdirSync dir in
      for_each files (fun filename =>
        let fullpath := resolve dir filename in
        let* stats := lstatSync fullpath in
        if isDirectory stats then
          postOrderDirectoryTraverse fuel' fullpath dirCallback fileCallback ;;
          dirCallback fullpath
        else fileCallback fullpath)
  end.

(** [emptyDir(dir)], lines 38-48; the budget is the traversal's. *)
Definition emptyDir (fuel : nat) (dir : path) : io unit :=
  let* ex := existsSync dir in
  if negb ex then ret tt
  else
    postOrderDirectoryTraverse fuel dir
      (fun dir => rmdirSync dir)
      (fun file => unlinkSync file).

(** *** [toValidPackageName]

    A JavaScript string is a sequence of UTF-16 code units, and a regular
    expression without the [u] flag matches code unit by code unit. *)

Module Js.

Definition jsstring := list N.

Fixpoint of_string (s : string) : jsstring :=
  match s with
  | EmptyString => []
  | String a s' => Ascii.N_of_ascii a :: of_string s'
  end.

(** The class [\s], which is also what [trim] strips: WhiteSpace and
    LineTerminator of the language specification. *)
Definition isWhiteSpace (c : N) : bool :=
  (9 <=? c)%N && (c <=? 13)%N
  || (c =? 32)%N || (c =? 160)%N || (c =? 0x1680)%N
  || (0x2000 <=? c)%N && (c <=? 0x200A)%N
  || (c =? 0x2028)%N || (c =? 0x2029)%N || (c =? 0x202F)%N
  || (c =? 0x205F)%N || (c =? 0x3000)%N || (c =? 0xFEFF)%N.

Fixpoint trimStart (s : jsstring) : jsstring :=
  match s with
  | [] => []
  | c :: s' => if isWhiteSpace c then trimStart s' else s
  end.

Definition trimEnd (s : jsstring) : jsstring := rev (trimStart (rev s)).

Definition trim (s : jsstring) : jsstring := trimEnd (trimStart s).

Definition dash : N := 45.

(** [s.replace(/[cls]+/g, '-')]: every maximal run of code units of the
    class becomes one dash.  [in_run] tells that the previous code unit
    was of the class. *)
Fixpoint replace_runs_from (cls : N -> bool) (in_run : bool) (s : jsstring)
  : jsstring :=
  match s with
  | [] => []
  | c :: s' =>
      if cls c then
        if in_run then replace_runs_from cls true s'
        else dash :: replace_runs_from cls true s'
      else c :: replace_runs_from cls false s'
  end.

Definition replace_runs (cls : N -> bool) (s : jsstring) : jsstring :=
  replace_runs_from cls false s.

(** [s.replace(/^[._]/, '')] *)
Definition strip_leading_dot_or_underscore (s : jsstring) : jsstring :=
  match s with
  | c :: s' => if (c =? 46)%N || (c =? 95)%N then s' else s
  | [] => []
  end.

(** The class [[a-z0-9-~]]. *)
Definition isNameChar (c : N) : bool :=
  (97 <=? c)%N && (c <=? 122)%N
  || (48 <=? c)%N && (c <=? 57)%N
  || (c =? 45)%N || (c =? 126)%N.

End Js.

Import Js.

Section PackageName.

(** [String.prototype.toLowerCase] follows the Unicode case mapping, which
    is no part of the program: it is taken as given. *)
Variable toLowerCase : jsstring -> jsstring.

(** [toValidPackageName(projectName)], lines 20-27. *)
Definition toValidPackageName (projectName : jsstring) : jsstring :=
  replace_runs (fun c => negb (isNameChar c))
    (strip_leading_dot_or_underscore
       (replace_runs isWhiteSpace
          (toLowerCase (trim projectName)))).

End PackageName.

(** Lower-casing of the ASCII letters, the other code units kept: the
    Unicode mapping restricted to ASCII text. *)
Definition ascii_toLowerCase (s : jsstring) : jsstring :=
  map (fun c => if (65 <=? c)%N && (c <=? 90)%N then (c + 32)%N else c) s.

(** ** Example trees *)

Definition template_tree : node :=
  Dir [("a.txt", File "hello");
       ("_gitignore", File "node_modules");
       ("package.json", File "{version:1.0.0,deps:{a:1}}");
       ("node_modules", Dir [("leftover.txt", File "x")]);
       ("sub", Dir [("_b", File "c")])].

Definition fs0 : world :=
  {| root := Dir [("t", template_tree);
                  ("d", Dir [("package.json", File "{name:x,deps:{b:2}}")])];
     trace := [] |}.

(** ** Reading a tree *)

Definition file_at (p : path) (t : node) : option string :=
  match lookup p t with
  | Some (File c) => Some c
  | _ => None
  end.

Definition dir_at (p : path) (t : node) : bool :=
  match lookup p t with
  | Some (Dir _) => true
  | _ => false
  end.

(** The depth of the tree below a node; a recursion budget above it is
    enough to walk the whole tree. *)
Fixpoint height (t : node) : nat :=
  match t with
  | File _ => 0
  | Dir es =>
      S ((fix heights (es : list (name * node)) : nat :=
            match es with
            | [] => 0
            | (_, c) :: es' => Nat.max (height c) (heights es')
            end) es)
  end.

(** The spec's NotFound condition: the path does not resolve, because a
    component is missing ([ENOENT]) or hangs below a regular file
    ([ENOTDIR]). *)
Definition NotFound (e : errno) : Prop := e = ENOENT ∨ e = ENOTDIR.

(** The second world is the first one with directories added and nothing
    else: the regular files are the same ones at the same paths, no
    directory is gone, and the system calls made are [mkdir]s. *)
Definition only_dirs_added (w w' : world) : Prop :=
  (∀ p, file_at p (root w') = file_at p (root w))
  ∧ (∀ p, dir_at p (root w) = true → dir_at p (root w') = true)
  ∧ ∃ ds, trace w' = trace w ++ (Mkdir <$> ds).

(** Two paths neither of which lies at or below the other. *)
Definition apart (p q : path) : Prop := ¬ p `prefix_of` q ∧ ¬ q `prefix_of` p.

(** The world keeps everything at and below a path. *)
Definition same_below (src : path) (w w' : world) : Prop :=
  ∀ p, src `prefix_of` p → lookup p (root w') = lookup p (root w).

(** The world keeps what is at one path. *)
Definition same_at (p : path) (w w' : world) : Prop :=
  lookup p (root w') = lookup p (root w).

(** The spec's safely reusable target: missing, or a directory with no
    entry, or a directory whose one entry is named [.git]. *)
Definition safely_reusable (dir : path) (t : node) : Prop :=
  lookup dir t = None
  ∨ lookup dir t = Some (Dir [])
  ∨ ∃ c, lookup dir t = Some (Dir [(".git", c)]).

(** A template with one manifest over a destination that has its own. *)
Definition manifest_world (template existing : string) : world :=
  {| root := Dir [("t", Dir [("package.json", File template)]);
                  ("d", Dir [("package.json", File existing)])];
     trace := [] |}.

(** The tree with the node at a path replaced. *)
Fixpoint put_at (p : path) (new : node) (t : node) : node :=
  match p with
  | [] => new
  | n :: p' =>
      match t with
      | File _ => t
      | Dir es => Dir (alter_entry n (put_at p' new) es)
      end
  end.

(** The path a system call acts on. *)
Definition target (s : syscall) : path :=
  match s with
  | Mkdir p | Rmdir p | Unlink p => p
  end.

(** What it takes to remove one entry [n] of the directory [dir], given
    the calls [below] that empty it when it is a directory. *)
Definition removal_of (dir : path) (n : name) (c : node) (below : list syscall)
  : list syscall :=
  match c with
  | File _ => [Unlink (resolve dir n)]
  | Dir _ => below ++ [Rmdir (resolve dir n)]
  end.

(** The post-order listing of everything below [dir], where [t] is the
    tree at [dir]: entry by entry, the content of a subdirectory before
    the subdirectory. *)
Fixpoint removals (dir : path) (t : node) : list syscall :=
  match t with
  | File _ => []
  | Dir es =>
      (fix entries (es : list (name * node)) : list syscall :=
         match es with
         | [] => []
         | (n, c) :: es' =>
             removal_of dir n c (removals (resolve dir n) c) ++ entries es'
         end) es
  end.

(** The entries of every directory have distinct names. *)
Fixpoint well_formed (t : node) : bool :=
  match t with
  | File _ => true
  | Dir es =>
      bool_decide (NoDup (map fst es))
      && (fix entries (es : list (name * node)) : bool :=
            match es with
            | [] => true
            | (_, c) :: es' => well_formed c && entries es'
            end) es
  end.

(** Children first: once a directory has been removed, no later call of
    the list acts on a path at or below it. *)
Definition children_first (evs : list syscall) : Prop :=
  ∀ l1 d l2, evs = l1 ++ Rmdir d :: l2 →
    ∀ e, e ∈ l2 → ¬ d `prefix_of` target e.

(** ** Regular expressions over code units

    [isValidPackageName] tests its argument against a pattern anchored at
    both ends, with no capture used, no back-reference and no look-around:
    the test succeeds exactly when the whole string is in the language of
    the pattern.  The matcher takes derivatives. *)

Module Regex.

Inductive regex :=
| Empty
| Eps
| Class (cls : N → bool)
| Seq (r1 r2 : regex)
| Alt (r1 r2 : regex)
| Star (r : regex).

(** One code unit [c]. *)
Definition Chr (c : N) : regex := Class (N.eqb c).

(** [(?:r)?] *)
Definition Opt (r : regex) : regex := Alt r Eps.

Fixpoint nullable (r : regex) : bool :=
  match r with
  | Empty => false
  | Eps => true
  | Class _ => false
  | Seq r1 r2 => nullable r1 && nullable r2
  | Alt r1 r2 => nullable r1 || nullable r2
  | Star _ => true
  end.

Fixpoint deriv (c : N) (r : regex) : regex :=
  match r with
  | Empty => Empty
  | Eps => Empty
  | Class cls => if cls c then Eps else Empty
  | Seq r1 r2 =>
      if nullable r1 then Alt (Seq (deriv c r1) r2) (deriv c r2)
      else Seq (deriv c r1) r2
  | Alt r1 r2 => Alt (deriv c r1) (deriv c r2)
  | Star r1 => Seq (deriv c r1) (Star r1)
  end.

(** [/^r$/.test(s)] *)
Fixpoint matches (r : regex) (s : jsstring) : bool :=
  match s with
  | [] => nullable r
  | c :: s' => matches (deriv c r) s'
  end.

(** The language of a pattern. *)
Inductive lang : regex → jsstring → Prop :=
| lang_eps : lang Eps []
| lang_class cls c : cls c = true → lang (Class cls) [c]
| lang_seq r1 r2 s1 s2 : lang r1 s1 → lang r2 s2 → lang (Seq r1 r2) (s1 ++ s2)
| lang_alt_l r1 r2 s : lang r1 s → lang (Alt r1 r2) s
| lang_alt_r r1 r2 s : lang r2 s → lang (Alt r1 r2) s
| lang_star_nil r : lang (Star r) []
| lang_star_more r s1 s2 :
    lang r s1 → lang (Star r) s2 → lang (Star r) (s1 ++ s2).

End Regex.

Import Regex.

(** *** [isValidPackageName], lines 16-18

    [/^(?:@[a-z0-9-*~][a-z0-9-*._~]*\/)?[a-z0-9-~][a-z0-9-._~]*$/] *)

(** The class [[a-z0-9-*~]]. *)
Definition isScopeHead (c : N) : bool := isNameChar c || (c =? 42)%N.

(** The class [[a-z0-9-*._~]]. *)
Definition isScopeTail (c : N) : bool :=
  isNameChar c || (c =? 42)%N || (c =? 46)%N || (c =? 95)%N.

(** The class [[a-z0-9-._~]]. *)
Definition isNameTail (c : N) : bool :=
  isNameChar c || (c =? 46)%N || (c =? 95)%N.

Definition package_name_pattern : regex :=
  Seq (Opt (Seq (Chr 64)
              (Seq (Class isScopeHead)
                 (Seq (Star (Class isScopeTail)) (Chr 47)))))
      (Seq (Class isNameChar) (Star (Class isNameTail))).

Definition isValidPackageName (projectName : jsstring) : bool :=
  matches package_name_pattern projectName.

(** A name without scope, as the pattern reads: one code unit of
    [[a-z0-9-~]], then code units of [[a-z0-9-._~]]. *)
Definition bare_name (s : jsstring) : Prop :=
  ∃ c r, s = c :: r ∧ isNameChar c = true
         ∧ Forall (λ x, isNameTail x = true) r.

(** A scope, between [@] and [/]: one code unit of [[a-z0-9-*~]], then
    code units of [[a-z0-9-*._~]]. *)
Definition scope_name (s : jsstring) : Prop :=
  ∃ c r, s = c :: r ∧ isScopeHead c = true
         ∧ Forall (λ x, isScopeTail x = true) r.

(** The source is kept and directories are only added. *)
Definition render_step (src : path) (w w' : world) : Prop :=
  same_below src w w' ∧ only_dirs_added w w'.

(** ** The calls [init] makes on the target

    [fs.mkdirSync(p)] without [recursive] makes one directory: its parent
    has to be there and the path itself must be free. *)
Fixpoint mkdir_one (p : path) (t : node) : result node :=
  match t with
  | File _ => match p with [] => Err EEXIST | _ :: _ => Err ENOTDIR end
  | Dir es =>
      match p with
      | [] => Err EEXIST
      | n :: p' =>
          match find_entry n es with
          | Some c =>
              match mkdir_one p' c with
              | Ok c' => Ok (Dir (alter_entry n (λ _, c') es))
              | Err e => Err e
              end
          | None =>
              match p' with
              | [] => Ok (Dir (es ++ [(n, Dir [])]))
              | _ :: _ => Err ENOENT
              end
          end
      end
  end.

Definition mkdirSync (p : path) : io unit :=
  fun w =>
    match mkdir_one p (root w) with
    | Ok t => (Done tt, {| root := t; trace := trace w ++ [Mkdir p] |})
    | Err e => (Throw e, w)
    end.

(** [fs.writeFileSync(p, data)] makes the file or replaces its content;
    the parent has to be a directory and the path no directory. *)
Fixpoint write_file (p : path) (data : string) (t : node) : result node :=
  match t with
  | File _ => match p with [] => Ok (File data) | _ :: _ => Err ENOTDIR end
  | Dir es =>
      match p with
      | [] => Err EISDIR
      | n :: p' =>
          match find_entry n es with
          | Some c =>
              match write_file p' data c with
              | Ok c' => Ok (Dir (alter_entry n (λ _, c') es))
              | Err e => Err e
              end
          | None =>
              match p' with
              | [] => Ok (Dir (es ++ [(n, File data)]))
              | _ :: _ => Err ENOENT
              end
          end
      end
  end.

(** The trace keeps the calls on directories and the removals; a write
    shows in the tree. *)
Definition writeFileSync (p : path) (data : string) : io unit :=
  fun w =>
    match write_file p data (root w) with
    | Ok t => (Done tt, {| root := t; trace := trace w |})
    | Err e => (Throw e, w)
    end.

(** *** [init], lines 157-168: the target is emptied or made, then the
    manifest is written into it.  [manifest] is the text
    [JSON.stringify(pkg, null, 2)]. *)
Definition init_scaffold (fuel : nat) (root : path) (shouldOverwrite : bool)
    (manifest : string) : io unit :=
  (let* ex := existsSync root in
   if ex && shouldOverwrite then emptyDir fuel root
   else
     let* ex' := existsSync root in
     if negb ex' then mkdirSync root else ret tt) ;;
  writeFileSync (resolve root "package.json") manifest.

(** *** [init], lines 100-116 and 144-163: the question about the target

    The question [shouldOverwrite] is put only when [canSkipEmptying]
    answers [false] and [--force] is not given; a question not put leaves
    no answer, and then [shouldOverwrite] is [argv.force].  The answer
    [false] makes [overwriteChecker] throw, and so does an exception of
    [canSkipEmptying]: either way [init] prints the message and leaves by
    [process.exit(1)].  [confirm] is what the user answers when asked;
    [targetDir] is the path as the calls of [canSkipEmptying] resolve it,
    [root] is [path.join(cwd, targetDir)]. *)
Inductive init_outcome :=
| Exit1
| Scaffolded (o : outcome unit).

Definition init_target (fuel : nat) (targetDir root : path)
    (force confirm : bool) (manifest : string)
  : world → init_outcome * world :=
  fun w =>
    match canSkipEmptying targetDir w with
    | (Done skip, w1) =>
        let answer := if skip || force then None else Some confirm in
        match answer with
        | Some false => (Exit1, w1)
        | _ =>
            let shouldOverwrite := default force answer in
            let (o, w2) := init_scaffold fuel root shouldOverwrite manifest w1 in
            (Scaffolded o, w2)
        end
    | (_, w1) => (Exit1, w1)
    end.

(** Nothing that was there is gone or changed, but for the regular file
    at [d], which may have new content. *)
Definition kept_except (d : path) (w w' : world) : Prop :=
  (∀ p c, p ≠ d → file_at p (root w) = Some c → file_at p (root w') = Some c)
  ∧ (∀ p, dir_at p (root w) = true → dir_at p (root w') = true).

(** *** [init], lines 73-74 and 98: the project name from the prompt

    The question is put only when no directory is given on the command
    line, and then [defaultProjectName] is the fixed name. *)
Definition defaultProjectName : jsstring := of_string "compo-kit-project".

(** [String(state.value).trim() || defaultProjectName] *)
Definition onState (value : jsstring) : jsstring :=
  match trim value with
  | [] => defaultProjectName
  | c :: v => c :: v
  end.

(** ** Facts about the file system model *)

Section FsFacts.

Implicit Types (n m : name) (p q d : path) (t c : node)
               (es : list (name * node)).

Lemma find_entry_alter n m f es :
  find_entry m (alter_entry n f es)
  = if String.eqb n m then f <$> find_entry m es else find_entry m es.
Proof.
  induction es as [|[k c] es IH]; simpl.
  - by destruct (String.eqb n m).
  - destruct (String.eqb k n) eqn:Hkn; simpl.
    + apply String.eqb_eq in Hkn as ->.
      by destruct (String.eqb n m).
    + destruct (String.eqb k m) eqn:Hkm; [|done].
      apply String.eqb_eq in Hkm as ->.
      rewrite String.eqb_sym, Hkn. done.
Qed.

Lemma find_entry_snoc n m c es :
  find_entry m (es ++ [(n, c)])
  = match find_entry m es with
    | Some x => Some x
    | None => if String.eqb n m then Some c else None
    end.
Proof.
  induction es as [|[k x] es IH]; simpl; [done|].
  by destruct (String.eqb k m).
Qed.

Lemma lookup_nil t : lookup [] t = Some t.
Proof. done. Qed.

Lemma lookup_cons n p t :
  lookup (n :: p) t
  = match t with
    | File _ => None
    | Dir es => find_entry n es ≫= lookup p
    end.
Proof.
  unfold lookup; simpl. destruct t as [|es]; [done|].
  by destruct (find_entry n es).
Qed.

Lemma lookup_empty_dir p : p ≠ [] → lookup p (Dir []) = None.
Proof. by destruct p. Qed.

Lemma lookup_app p q t : lookup (p ++ q) t = lookup p t ≫= lookup q.
Proof.
  revert t. induction p as [|n p IH]; intros t; [done|].
  simpl. rewrite !lookup_cons. destruct t as [|es]; [done|].
  destruct (find_entry n es); simpl; [apply IH|done].
Qed.

Lemma lookup_walk p t : lookup p t = None ↔ ∃ e, walk p t = Err e.
Proof.
  unfold lookup. destruct (walk p t); split; [done| |eauto|done].
  by intros [? ?].
Qed.

(** What [mkdir -p] leaves alone: every path that is not on the way to
    the directory it makes. *)
Lemma mkdirp_lookup_off d t t' p :
  mkdirp d t = Ok t' → ¬ p `prefix_of` d → lookup p t' = lookup p t.
Proof.
  revert t t' p. induction d as [|n d IH]; intros t t' p Hmk Hp.
  - destruct t; simpl in Hmk; by simplify_eq.
  - destruct p as [|m p]; [destruct Hp; apply prefix_nil|].
    destruct t as [|es]; [done|]. simpl in Hmk.
    rewrite !lookup_cons.
    destruct (find_entry n es) as [c|] eqn:Hn.
    + destruct (mkdirp d c) as [c'|] eqn:Hc; [|done]. simplify_eq.
      rewrite find_entry_alter.
      destruct (String.eqb n m) eqn:Hnm; [|done].
      apply String.eqb_eq in Hnm as <-. rewrite Hn. simpl.
      eapply IH; [done|]. intros Hpre. apply Hp. by apply prefix_cons.
    + destruct (mkdirp d (Dir [])) as [c'|] eqn:Hc; [|done]. simplify_eq.
      rewrite find_entry_snoc.
      destruct (find_entry m es) eqn:Hm; [done|].
      destruct (String.eqb n m) eqn:Hnm; [|done]. simpl.
      apply String.eqb_eq in Hnm as <-.
      assert (¬ p `prefix_of` d) as Hpd.
      { intros Hpre. apply Hp. by apply prefix_cons. }
      rewrite (IH _ _ _ Hc Hpd). apply lookup_empty_dir.
      intros ->. apply Hpd, prefix_nil.
Qed.

(** [mkdir -p] touches no regular file and makes none. *)
Lemma mkdirp_file_at d t t' p :
  mkdirp d t = Ok t' → file_at p t' = file_at p t.
Proof.
  unfold file_at.
  revert t t' p. induction d as [|n d IH]; intros t t' p Hmk.
  - destruct t; simpl in Hmk; by simplify_eq.
  - destruct t as [|es]; [done|]. simpl in Hmk.
    destruct p as [|m p].
    { destruct (find_entry n es); [destruct (mkdirp d _)|destruct (mkdirp d _)];
        by simplify_eq. }
    rewrite !lookup_cons.
    destruct (find_entry n es) as [c|] eqn:Hn.
    + destruct (mkdirp d c) as [c'|] eqn:Hc; [|done]. simplify_eq.
      rewrite find_entry_alter.
      destruct (String.eqb n m) eqn:Hnm; [|done].
      apply String.eqb_eq in Hnm as <-. rewrite Hn. simpl. by eapply IH.
    + destruct (mkdirp d (Dir [])) as [c'|] eqn:Hc; [|done]. simplify_eq.
      rewrite find_entry_snoc.
      destruct (find_entry m es) eqn:Hm; [done|].
      destruct (String.eqb n m) eqn:Hnm; [|done]. simpl.
      rewrite (IH _ _ p Hc). by destruct p.
Qed.

(** [mkdir -p] removes no directory. *)
Lemma mkdirp_dir_at d t t' p :
  mkdirp d t = Ok t' → dir_at p t = true → dir_at p t' = true.
Proof.
  unfold dir_at.
  revert t t' p. induction d as [|n d IH]; intros t t' p Hmk.
  - destruct t; simpl in Hmk; by simplify_eq.
  - destruct t as [|es]; [done|]. simpl in Hmk.
    destruct p as [|m p].
    { destruct (find_entry n es); [destruct (mkdirp d _)|destruct (mkdirp d _)];
        by simplify_eq. }
    rewrite !lookup_cons.
    destruct (find_entry n es) as [c|] eqn:Hn.
    + destruct (mkdirp d c) as [c'|] eqn:Hc; [|done]. simplify_eq.
      rewrite find_entry_alter.
      destruct (String.eqb n m) eqn:Hnm; [|done].
      apply String.eqb_eq in Hnm as <-. rewrite Hn. simpl. by eapply IH.
    + destruct (mkdirp d (Dir [])) as [c'|] eqn:Hc; [|done]. simplify_eq.
      rewrite find_entry_snoc.
      by destruct (find_entry m es) eqn:Hm.
Qed.

End FsFacts.

(** ** Reasoning about programs of the monad

    A relation between the world before and the world after that every
    step keeps, and that is reflexive and transitive, is kept by the whole
    program, whatever its outcome. *)

Section Relations.

Variable R : world → world → Prop.
Hypothesis R_refl : ∀ w, R w w.
Hypothesis R_trans : ∀ w1 w2 w3, R w1 w2 → R w2 w3 → R w1 w3.

Lemma bind_rel {A B} (m : io A) (k : A → io B) w :
  R w (m w).2 → (∀ a, R (m w).2 (k a (m w).2).2) → R w (bind m k w).2.
Proof.
  unfold bind. destruct (m w) as [[a| |] w1]; simpl; eauto.
Qed.

Lemma for_each_rel {A} (l : list A) (body : A → io unit) w :
  (∀ x w1, x ∈ l → R w1 (body x w1).2) → R w (for_each l body w).2.
Proof.
  revert w. induction l as [|x l IH]; intros w Hbody; simpl; [done|].
  apply bind_rel.
  - apply Hbody. by left.
  - intros _. apply IH. intros y w1 Hy. apply Hbody. by right.
Qed.

Lemma statSync_world p w : (statSync p w).2 = w.
Proof. unfold statSync. by destruct (walk p (root w)). Qed.

Lemma readdirSync_world p w : (readdirSync p w).2 = w.
Proof. unfold readdirSync. by destruct (walk p (root w)) as [[|]|]. Qed.

Lemma existsSync_world p w : (existsSync p w).2 = w.
Proof. unfold existsSync. by destruct (walk p (root w)). Qed.

(** The shape of every run of [renderTemplate]: its only step that can
    change the world is the [mkdir] of the destination of a source
    directory that is not [node_modules]. *)
Lemma renderTemplate_rel (Q : path → path → Prop) :
  (∀ src d w, Q src d → basename src ≠ "node_modules" →
     R w (mkdirSync_recursive d w).2) →
  (∀ src d file, Q src d → basename src ≠ "node_modules" →
     Q (resolve src file) (resolve d file)) →
  ∀ fuel src d w, Q src d → R w (renderTemplate fuel src d w).2.
Proof.
  intros Hmk Hstep. induction fuel as [|fuel IH]; intros src d w HQ; [done|].
  simpl. apply bind_rel.
  { rewrite statSync_world. done. }
  intros stats. rewrite statSync_world.
  destruct (isDirectory stats); [|done].
  destruct (String.eqb _ _) eqn:Hbase; [done|].
  apply String.eqb_neq in Hbase.
  apply bind_rel; [by eapply Hmk|]. intros _.
  apply bind_rel.
  { rewrite readdirSync_world. done. }
  intros files. rewrite readdirSync_world.
  apply for_each_rel. intros file w1 _. apply IH. by apply Hstep.
Qed.

(** A loop whose every round returns or throws does so itself. *)
Lemma for_each_not_cut_off {A} (l : list A) (body : A → io unit) w :
  (∀ x w1, x ∈ l → R w w1 → (body x w1).1 ≠ OutOfFuel) →
  (∀ x w1, x ∈ l → R w1 (body x w1).2) →
  (for_each l body w).1 ≠ OutOfFuel.
Proof.
  revert w. induction l as [|x l IH]; intros w Hret Hrel; simpl; [done|].
  unfold bind.
  pose proof (Hret x w (list_elem_of_here _ _) (R_refl w)) as Hx.
  pose proof (Hrel x w (list_elem_of_here _ _)) as Hw.
  destruct (body x w) as [[[]| |] w1]; simpl in *; [|done..].
  apply IH.
  - intros y w2 Hy Hw2. apply Hret; [by right|by eapply R_trans].
  - intros y w2 Hy. apply Hrel. by right.
Qed.

End Relations.

Lemma basename_resolve dir file : basename (resolve dir file) = file.
Proof. unfold basename, resolve. apply List.last_last. Qed.

(** *** Only directories are added *)

Lemma only_dirs_added_refl w : only_dirs_added w w.
Proof.
  split_and!; [done..|]. exists []. simpl. by rewrite app_nil_r.
Qed.

Lemma only_dirs_added_trans w1 w2 w3 :
  only_dirs_added w1 w2 → only_dirs_added w2 w3 → only_dirs_added w1 w3.
Proof.
  intros (Hf1 & Hd1 & ds1 & Ht1) (Hf2 & Hd2 & ds2 & Ht2). split_and!.
  - intros p. by rewrite Hf2.
  - auto.
  - exists (ds1 ++ ds2). by rewrite Ht2, Ht1, fmap_app, app_assoc.
Qed.

Lemma mkdirSync_recursive_only_dirs d w :
  only_dirs_added w (mkdirSync_recursive d w).2.
Proof.
  unfold mkdirSync_recursive.
  destruct (mkdirp d (root w)) as [t|] eqn:Hmk; simpl;
    [|apply only_dirs_added_refl].
  split_and!; simpl.
  - intros p. by eapply mkdirp_file_at.
  - intros p. by eapply mkdirp_dir_at.
  - by exists [d].
Qed.

Lemma renderTemplate_only_dirs fuel src dest w :
  only_dirs_added w (renderTemplate fuel src dest w).2.
Proof.
  apply (renderTemplate_rel only_dirs_added only_dirs_added_refl
           only_dirs_added_trans (λ _ _, True)); [|done..].
  intros. apply mkdirSync_recursive_only_dirs.
Qed.

(** *** What a failed path resolution reports *)

Lemma walk_error p t e :
  walk p t = Err e →
  NotFound e
  ∧ (e = ENOTDIR ↔ ∃ q c, q `prefix_of` p ∧ lookup q t = Some (File c)).
Proof.
  unfold NotFound.
  revert t. induction p as [|n p IH]; intros t Hw; [done|].
  destruct t as [c|es]; simpl in Hw.
  - simplify_eq. split; [by right|]. split; [|done].
    intros _. exists [], c. split; [apply prefix_nil|done].
  - destruct (find_entry n es) as [c|] eqn:Hn.
    + destruct (IH _ Hw) as [Hnf Hiff]. split; [done|].
      rewrite Hiff. split.
      * intros (q & c0 & Hq & Hl). exists (n :: q), c0.
        split; [by apply prefix_cons|]. by rewrite lookup_cons, Hn.
      * intros (q & c0 & Hq & Hl). destruct q as [|m q]; [done|].
        pose proof (prefix_cons_inv_1 _ _ _ _ Hq) as ->.
        apply prefix_cons_inv_2 in Hq.
        rewrite lookup_cons, Hn in Hl. by exists q, c0.
    + simplify_eq. split; [by left|]. split; [done|].
      intros (q & c0 & Hq & Hl). destruct q as [|m q]; [done|].
      pose proof (prefix_cons_inv_1 _ _ _ _ Hq) as ->.
      by rewrite lookup_cons, Hn in Hl.
Qed.

(** *** One unfolding of [renderTemplate] *)

Lemma renderTemplate_file fuel src dest w c :
  lookup src (root w) = Some (File c) →
  renderTemplate (S fuel) src dest w = (Done tt, w).
Proof.
  unfold lookup. intros Hl. simpl. unfold bind, statSync.
  destruct (walk src (root w)) as [[|]|]; by simplify_eq.
Qed.

Lemma renderTemplate_node_modules fuel src dest w :
  basename src = "node_modules" →
  dir_at src (root w) = true →
  renderTemplate (S fuel) src dest w = (Done tt, w).
Proof.
  unfold dir_at, lookup. intros Hb Hd. simpl. unfold bind, statSync.
  destruct (walk src (root w)) as [[|]|]; simplify_eq; simpl.
  by rewrite Hb.
Qed.

Lemma renderTemplate_missing fuel src dest w e :
  walk src (root w) = Err e →
  renderTemplate (S fuel) src dest w = (Throw e, w).
Proof.
  intros Hw. simpl. unfold bind, statSync. by rewrite Hw.
Qed.

(** *** Nothing is made at or below a [node_modules] of the destination *)

Lemma same_at_refl p w : same_at p w w.
Proof. done. Qed.

Lemma same_at_trans p w1 w2 w3 :
  same_at p w1 w2 → same_at p w2 w3 → same_at p w1 w3.
Proof. unfold same_at. congruence. Qed.

Lemma mkdirSync_recursive_same_at p d w :
  ¬ p `prefix_of` d → same_at p w (mkdirSync_recursive d w).2.
Proof.
  intros Hp. unfold same_at, mkdirSync_recursive.
  destruct (mkdirp d (root w)) as [t|] eqn:Hmk; simpl; [|done].
  by eapply mkdirp_lookup_off.
Qed.

Lemma renderTemplate_same_at_node_modules fuel src dest w q :
  "node_modules" ∈ q →
  same_at (dest ++ q) w (renderTemplate fuel src dest w).2.
Proof.
  intros Hq.
  apply (renderTemplate_rel (same_at (dest ++ q)) (same_at_refl _)
           (same_at_trans _)
           (λ s d, basename s ≠ "node_modules" →
                   ∀ r, "node_modules" ∉ r → ¬ (dest ++ q) `prefix_of` (d ++ r))).
  - intros s d w1 HQ Hb. apply mkdirSync_recursive_same_at.
    specialize (HQ Hb [] (not_elem_of_nil _)). by rewrite app_nil_r in HQ.
  - intros s d file HQ Hb. rewrite basename_resolve. intros Hfile r Hr.
    unfold resolve. rewrite <- app_assoc. apply HQ; [done|].
    simpl. rewrite elem_of_cons. intros [?|?]; by simplify_eq.
  - intros _ r Hr Hpre. apply prefix_app_inv in Hpre.
    destruct Hpre as [k ->]. apply Hr. rewrite elem_of_app. by left.
Qed.

(** *** With source and destination apart, [renderTemplate] comes to an end *)

Lemma prefix_snoc_inv (p d : path) x :
  p `prefix_of` d ++ [x] → p `prefix_of` d ∨ p = d ++ [x].
Proof.
  intros [k Hk]. destruct k as [|y k _] using rev_ind.
  - right. by rewrite app_nil_r in Hk.
  - left. rewrite app_assoc in Hk. apply app_inj_tail in Hk as [-> _].
    by apply prefix_app_r.
Qed.

Lemma apart_resolve_r p d file : apart p d → apart p (resolve d file).
Proof.
  unfold resolve. intros [Hpd Hdp]. split.
  - intros [?| ->]%prefix_snoc_inv; [done|]. apply Hdp. by apply prefix_app_r.
  - intros Hpre. apply Hdp. etrans; [|done]. by apply prefix_app_r.
Qed.

Lemma apart_resolve p d file : apart p d → apart (resolve p file) (resolve d file).
Proof.
  unfold resolve. intros [Hpd Hdp]. split.
  - intros [Hpre|Heq]%prefix_snoc_inv.
    + apply Hpd. etrans; [|done]. by apply prefix_app_r.
    + apply app_inj_tail in Heq as [-> _]. by apply Hpd.
  - intros [Hpre|Heq]%prefix_snoc_inv.
    + apply Hdp. etrans; [|done]. by apply prefix_app_r.
    + apply app_inj_tail in Heq as [-> _]. by apply Hpd.
Qed.

Lemma same_below_refl src w : same_below src w w.
Proof. done. Qed.

Lemma same_below_trans src w1 w2 w3 :
  same_below src w1 w2 → same_below src w2 w3 → same_below src w1 w3.
Proof. unfold same_below. intros H1 H2 p Hp. by rewrite H2, H1. Qed.

Lemma mkdirSync_recursive_same_below src d w :
  ¬ src `prefix_of` d → same_below src w (mkdirSync_recursive d w).2.
Proof.
  intros Hd p Hp. apply mkdirSync_recursive_same_at.
  intros Hpd. apply Hd. by etrans.
Qed.

Lemma renderTemplate_same_below src0 fuel src dest w :
  apart src0 dest → same_below src0 w (renderTemplate fuel src dest w).2.
Proof.
  apply (renderTemplate_rel (same_below src0) (same_below_refl _)
           (same_below_trans _) (λ _ d, apart src0 d)).
  - intros _ d w1 [Hd _] _. by apply mkdirSync_recursive_same_below.
  - intros _ d file Hd _. by apply apart_resolve_r.
Qed.

Lemma height_cons (m : name) x es :
  height (Dir ((m, x) :: es)) = Nat.max (S (height x)) (height (Dir es)).
Proof. reflexivity. Qed.

Lemma height_entry n c es : find_entry n es = Some c → height c < height (Dir es).
Proof.
  induction es as [|[m x] es IH]; [done|].
  rewrite height_cons. cbn [find_entry].
  destruct (String.eqb m n); intros Hf; simplify_eq.
  - lia.
  - specialize (IH Hf). lia.
Qed.

Lemma find_entry_listed n es : n ∈ map fst es → is_Some (find_entry n es).
Proof.
  induction es as [|[m x] es IH]; simpl.
  - by intros ?%elem_of_nil.
  - destruct (String.eqb m n) eqn:Hmn; [by eauto|].
    apply String.eqb_neq in Hmn.
    intros [?|?]%elem_of_cons; [by simplify_eq|auto].
Qed.

(** A budget above the height of the source tree is enough: the run
    returns or throws. *)
Lemma renderTemplate_not_cut_off fuel src dest w t :
  apart src dest →
  lookup src (root w) = Some t →
  height t < fuel →
  (renderTemplate fuel src dest w).1 ≠ OutOfFuel.
Proof.
  revert src dest w t.
  induction fuel as [|fuel IH]; intros src dest w t Hap Hsrc Hfuel; [lia|].
  assert (walk src (root w) = Ok t) as Hw.
  { unfold lookup in Hsrc. destruct (walk src (root w)); by simplify_eq. }
  simpl. unfold bind at 1. unfold statSync. rewrite Hw. simpl.
  destruct t as [c|es]; simpl; [done|].
  destruct (String.eqb _ _); [done|].
  unfold bind at 1.
  pose proof (mkdirSync_recursive_same_below src dest w (proj1 Hap)) as Hmk.
  destruct (mkdirSync_recursive dest w) as [[[]| |] w1] eqn:Hmkeq;
    simpl in *; [|done|].
  2:{ unfold mkdirSync_recursive in Hmkeq.
      destruct (mkdirp dest (root w)); by simplify_eq. }
  assert (walk src (root w1) = Ok (Dir es)) as Hw1.
  { specialize (Hmk src (reflexivity _)). unfold lookup in Hmk.
    rewrite Hw in Hmk. destruct (walk src (root w1)); by simplify_eq. }
  unfold bind at 1. unfold readdirSync. rewrite Hw1. simpl.
  apply (for_each_not_cut_off (same_below src) (same_below_refl _)
           (same_below_trans _)).
  - intros file w2 Hfile Hw2.
    destruct (find_entry_listed _ _ Hfile) as [c Hc].
    apply (IH _ _ _ c).
    + by apply apart_resolve.
    + unfold resolve. rewrite Hw2 by (by apply prefix_app_r).
      rewrite Hmk by (by apply prefix_app_r).
      rewrite lookup_app, Hsrc. simpl. by rewrite lookup_cons, Hc.
    + apply height_entry in Hc. simpl in *. lia.
  - intros file w2 _. apply renderTemplate_same_below.
    by apply apart_resolve_r.
Qed.

(** ** The template renderer *)

(** C1 (the code departs from it): rendering a template is to reproduce
    every file of the template in the destination.  [renderTemplate] stops
    after the directory case: rendering the example template ["t"] into
    ["d"] returns normally, yet the file [a.txt] of the template, and
    [sub/_b] under either name, are nowhere in the destination, whose only
    new entry is the empty directory [sub]. *)
Theorem renderTemplate_copies_no_file :
  let r := renderTemplate 5 ["t"] ["d"] fs0 in
  r.1 = Done tt
  ∧ file_at ["t"; "a.txt"] (root fs0) = Some "hello"
  ∧ lookup ["d"; "a.txt"] (root r.2) = None
  ∧ lookup ["d"; "sub"] (root r.2) = Some (Dir [])
  ∧ trace r.2 = [Mkdir ["d"]; Mkdir ["d"; "sub"]].
Proof. by vm_compute. Qed.

(** C2 (the code departs from it): a template file [_foo] is to be written
    as [.foo], any other file under its own name.  [renderTemplate] writes
    no file under any name: after rendering the example template, neither
    [.gitignore] nor [_gitignore] nor [a.txt] is in the destination, and
    the regular files of the world are the ones it had before. *)
Theorem renderTemplate_renames_no_dotfile :
  let r := renderTemplate 5 ["t"] ["d"] fs0 in
  r.1 = Done tt
  ∧ file_at ["t"; "_gitignore"] (root fs0) = Some "node_modules"
  ∧ lookup ["d"; ".gitignore"] (root r.2) = None
  ∧ lookup ["d"; "_gitignore"] (root r.2) = None
  ∧ lookup ["d"; "a.txt"] (root r.2) = None
  ∧ ∀ p, file_at p (root r.2) = file_at p (root fs0).
Proof.
  split_and!; try by vm_compute.
  intros p. apply renderTemplate_only_dirs.
Qed.

(** C3 (the code departs from it): when the template and the destination
    both have a [package.json], the destination's is to become the merge of
    the two.  [renderTemplate] never opens either: whatever the two
    documents are, the run returns with the destination's manifest as it
    was, so no field of the template's is ever inserted. *)
Theorem renderTemplate_merges_no_manifest (template existing : string) :
  renderTemplate 2 ["t"] ["d"] (manifest_world template existing)
  = (Done tt, {| root := root (manifest_world template existing);
                 trace := [Mkdir ["d"]] |}).
Proof. reflexivity. Qed.

(** C5: a source directory named [node_modules] is skipped.  Rendering
    such a directory returns at once and leaves the world as it is; and in
    any run of [renderTemplate], whatever its outcome, every path of the
    destination that goes through a component [node_modules] holds after
    the run what it held before: nothing is made there.  With source and
    destination apart and a budget above the height of the source tree,
    the run does come to an end. *)
Theorem renderTemplate_skips_node_modules fuel src dest w :
  (basename src = "node_modules" → dir_at src (root w) = true →
   renderTemplate (S fuel) src dest w = (Done tt, w))
  ∧ (∀ q, "node_modules" ∈ q →
       lookup (dest ++ q) (root (renderTemplate fuel src dest w).2)
       = lookup (dest ++ q) (root w))
  ∧ (∀ t, apart src dest → lookup src (root w) = Some t → height t < fuel →
       (renderTemplate fuel src dest w).1 ≠ OutOfFuel).
Proof.
  split_and!.
  - apply renderTemplate_node_modules.
  - intros q Hq. by apply renderTemplate_same_at_node_modules.
  - intros t. apply renderTemplate_not_cut_off.
Qed.

Lemma renderTemplate_skips_node_modules_witness :
  basename ["t"; "node_modules"] = "node_modules"
  ∧ dir_at ["t"; "node_modules"] (root fs0) = true
  ∧ renderTemplate 1 ["t"; "node_modules"] ["d"; "node_modules"] fs0
    = (Done tt, fs0)
  ∧ lookup (["d"] ++ ["node_modules"]) (root (renderTemplate 5 ["t"] ["d"] fs0).2)
    = lookup (["d"] ++ ["node_modules"]) (root fs0)
  ∧ (renderTemplate 5 ["t"] ["d"] fs0).1 ≠ OutOfFuel.
Proof.
  split; [reflexivity|]. split; [reflexivity|]. split_and!.
  - apply (proj1 (renderTemplate_skips_node_modules
                    0 ["t"; "node_modules"] ["d"; "node_modules"] fs0));
      reflexivity.
  - apply (proj1 (proj2 (renderTemplate_skips_node_modules 5 ["t"] ["d"] fs0))).
    apply list_elem_of_here.
  - apply (proj2 (proj2 (renderTemplate_skips_node_modules 5 ["t"] ["d"] fs0))
             template_tree).
    + split; intros Hpre; apply prefix_cons_inv_1 in Hpre; discriminate.
    + reflexivity.
    + vm_compute. lia.
Defined.

(** C8: when the source path does not resolve, [renderTemplate] throws
    what [statSync] throws and the world is as before.  The error is a
    NotFound condition: [ENOENT], or [ENOTDIR] exactly when the path goes
    through a regular file. *)
Theorem renderTemplate_source_not_found fuel src dest w :
  lookup src (root w) = None →
  ∃ e, renderTemplate (S fuel) src dest w = (Throw e, w)
       ∧ NotFound e
       ∧ (e = ENOTDIR ↔
          ∃ q c, q `prefix_of` src ∧ lookup q (root w) = Some (File c)).
Proof.
  intros [e He]%lookup_walk. exists e.
  split; [by apply renderTemplate_missing|]. by apply walk_error.
Qed.

Lemma renderTemplate_source_not_found_witness :
  lookup ["nowhere"] (root fs0) = None
  ∧ ∃ e, renderTemplate 1 ["nowhere"] ["d"] fs0 = (Throw e, fs0)
         ∧ NotFound e
         ∧ (e = ENOTDIR ↔
            ∃ q c, q `prefix_of` ["nowhere"]
                   ∧ lookup q (root fs0) = Some (File c)).
Proof.
  split; [reflexivity|].
  apply (renderTemplate_source_not_found 0 ["nowhere"] ["d"] fs0).
  reflexivity.
Defined.

(** C9: in every run of [renderTemplate], whatever its outcome, the world
    changes by added directories only: every regular file is where it was
    with the content it had, no path has become a regular file, no
    directory is gone, and the system calls made are [mkdir]s.  When the
    source is a regular file the run returns with the world untouched. *)
Theorem renderTemplate_only_creates_directories fuel src dest w :
  let w' := (renderTemplate fuel src dest w).2 in
  (∀ p, file_at p (root w') = file_at p (root w))
  ∧ (∀ p, dir_at p (root w) = true → dir_at p (root w') = true)
  ∧ (∃ ds, trace w' = trace w ++ (Mkdir <$> ds))
  ∧ (∀ c, lookup src (root w) = Some (File c) →
       renderTemplate (S fuel) src dest w = (Done tt, w)).
Proof.
  destruct (renderTemplate_only_dirs fuel src dest w) as (Hf & Hd & Ht).
  split_and!; [done..|]. intros c. apply renderTemplate_file.
Qed.

Lemma renderTemplate_only_creates_directories_witness :
  dir_at ["t"; "sub"] (root fs0) = true
  ∧ lookup ["t"; "a.txt"] (root fs0) = Some (File "hello")
  ∧ dir_at ["t"; "sub"] (root (renderTemplate 5 ["t"] ["d"] fs0).2) = true
  ∧ renderTemplate 1 ["t"; "a.txt"] ["d"; "a.txt"] fs0 = (Done tt, fs0).
Proof.
  split; [reflexivity|]. split; [reflexivity|]. split.
  - apply (proj1 (proj2 (renderTemplate_only_creates_directories
                           5 ["t"] ["d"] fs0))).
    reflexivity.
  - apply (proj2 (proj2 (proj2 (renderTemplate_only_creates_directories
                                  0 ["t"; "a.txt"] ["d"; "a.txt"] fs0)))
             "hello").
    reflexivity.
Defined.

(** ** The directory reconciler *)

Lemma lookup_Some_walk p t c : lookup p t = Some c ↔ walk p t = Ok c.
Proof.
  unfold lookup. destruct (walk p t); split; intros; by simplify_eq.
Qed.

Lemma canSkipEmptying_run dir w :
  canSkipEmptying dir w
  = (match lookup dir (root w) with
     | None | Some (Dir []) => Done true
     | Some (Dir [(n, _)]) => Done (String.eqb n ".git")
     | Some (Dir (_ :: _ :: _)) => Done false
     | Some (File _) => Throw ENOTDIR
     end, w).
Proof.
  unfold canSkipEmptying, bind, existsSync, readdirSync, lookup.
  destruct (walk dir (root w)) as [[c|[|[n x] [|[m y] es]]]|e] eqn:Hw; simpl;
    rewrite ?Hw; simpl; try done.
  by destruct (String.eqb n ".git").
Qed.

(** C4: [canSkipEmptying] only reads, and it answers [true], no
    confirmation required, exactly when the target is missing, or is a
    directory with no entry, or is a directory whose one entry is [.git];
    in every other state of the target directory it answers [false],
    confirmation required.  A listing that fails is no state of the
    directory: where the path is a regular file, and only there,
    [readdirSync] throws [ENOTDIR] and no answer is given. *)
Theorem canSkipEmptying_classifies dir w :
  (canSkipEmptying dir w).2 = w
  ∧ ((canSkipEmptying dir w).1 = Done true ↔ safely_reusable dir (root w))
  ∧ ((canSkipEmptying dir w).1 = Done false ↔
     (∃ es, lookup dir (root w) = Some (Dir es))
     ∧ ¬ safely_reusable dir (root w))
  ∧ ((canSkipEmptying dir w).1 = Throw ENOTDIR ↔
     ∃ c, lookup dir (root w) = Some (File c)).
Proof.
  rewrite canSkipEmptying_run. unfold safely_reusable. simpl.
  destruct (lookup dir (root w)) as [[c|[|[n x] [|[m y] es]]]|] eqn:Hl;
    [| |destruct (String.eqb n ".git") eqn:Hn;
        [apply String.eqb_eq in Hn as ->|apply String.eqb_neq in Hn]|..];
    (split; [done|]); repeat split;
    try discriminate; try (intros; simplify_eq; fail); eauto;
    try (intros [?|[?|[? ?]]]; by simplify_eq);
    try (intros [[? ?] ?]; by simplify_eq);
    try (intros [? ?]; by simplify_eq).
  all: intros [_ Hno]; destruct Hno; eauto.
Qed.

(** C7: on a path that does not resolve, [emptyDir] returns without a
    system call made and with the world as it was, whatever the budget. *)
Theorem emptyDir_missing_is_noop fuel dir w :
  lookup dir (root w) = None →
  emptyDir fuel dir w = (Done tt, w).
Proof.
  intros [e He]%lookup_walk.
  unfold emptyDir, bind, existsSync. by rewrite He.
Qed.

Lemma emptyDir_missing_is_noop_witness :
  lookup ["nowhere"] (root fs0) = None
  ∧ emptyDir 0 ["nowhere"] fs0 = (Done tt, fs0).
Proof.
  split; [reflexivity|].
  apply (emptyDir_missing_is_noop 0 ["nowhere"] fs0). reflexivity.
Defined.

(** *** Replacing and removing nodes *)

Section TreeUpdates.

Implicit Types (n m : name) (p q d dir : path) (t c new : node)
               (es : list (name * node)).

Lemma walk_app p q t :
  walk (p ++ q) t = match walk p t with Ok c => walk q c | Err e => Err e end.
Proof.
  revert t. induction p as [|n p IH]; intros t; [done|].
  simpl. destruct t as [|es]; [done|]. by destruct (find_entry n es).
Qed.

Lemma alter_entry_ext n f g es c :
  find_entry n es = Some c → f c = g c → alter_entry n f es = alter_entry n g es.
Proof.
  intros Hf Hfg. induction es as [|[m x] es IH]; simpl in *; [done|].
  destruct (String.eqb m n); simplify_eq; [by rewrite Hfg|].
  by rewrite IH.
Qed.

Lemma alter_entry_missing n f es : find_entry n es = None → alter_entry n f es = es.
Proof.
  intros Hf. induction es as [|[m x] es IH]; simpl in *; [done|].
  destruct (String.eqb m n); [done|]. by rewrite IH.
Qed.

Lemma alter_entry_alter n f g es :
  alter_entry n f (alter_entry n g es) = alter_entry n (f ∘ g) es.
Proof.
  induction es as [|[m x] es IH]; simpl; [done|].
  destruct (String.eqb m n) eqn:Hmn; simpl; rewrite Hmn; [done|].
  by rewrite IH.
Qed.

Lemma walk_put_at p new t c : walk p t = Ok c → walk p (put_at p new t) = Ok new.
Proof.
  revert t. induction p as [|n p IH]; intros t Hw; [done|].
  destruct t as [|es]; [done|]. simpl in *.
  rewrite find_entry_alter, String.eqb_refl.
  destruct (find_entry n es) as [x|]; [|done]. simpl. by apply IH.
Qed.

Lemma put_at_put_at p new1 new2 t :
  put_at p new2 (put_at p new1 t) = put_at p new2 t.
Proof.
  revert t. induction p as [|n p IH]; intros t; [done|].
  destruct t as [|es]; [done|]. simpl. rewrite alter_entry_alter.
  destruct (find_entry n es) as [x|] eqn:Hn.
  - f_equal. eapply alter_entry_ext; [done|]. apply IH.
  - by rewrite !alter_entry_missing.
Qed.

Lemma put_at_resolve dir n new t es :
  walk dir t = Ok (Dir es) →
  put_at (resolve dir n) new t
  = put_at dir (Dir (alter_entry n (λ _, new) es)) t.
Proof.
  unfold resolve.
  revert t. induction dir as [|m dir IH]; intros t Hw; simpl in *.
  - by simplify_eq.
  - destruct t as [|es0]; [done|].
    destruct (find_entry m es0) as [x|] eqn:Hm; [|done].
    f_equal. eapply alter_entry_ext; [done|]. by apply IH.
Qed.

Lemma remove_resolve dir n t es :
  walk dir t = Ok (Dir es) →
  remove (resolve dir n) t = put_at dir (Dir (remove_entry n es)) t.
Proof.
  unfold resolve.
  revert t. induction dir as [|m dir IH]; intros t Hw; simpl in *.
  - by simplify_eq.
  - destruct t as [|es0]; [done|].
    destruct (find_entry m es0) as [x|] eqn:Hm; [|done].
    destruct (dir ++ [n]) as [|k r] eqn:Hd; [by destruct dir|].
    f_equal. eapply alter_entry_ext; [done|]. by apply IH.
Qed.

Lemma removals_cons dir n c es :
  removals dir (Dir ((n, c) :: es))
  = removal_of dir n c (removals (resolve dir n) c) ++ removals dir (Dir es).
Proof. reflexivity. Qed.

End TreeUpdates.

(** *** The calls [emptyDir] makes, where they succeed *)

Lemma readdirSync_dir p w es :
  walk p (root w) = Ok (Dir es) → readdirSync p w = (Done (map fst es), w).
Proof. unfold readdirSync. by intros ->. Qed.

Lemma lstatSync_found p w c :
  walk p (root w) = Ok c → lstatSync p w = (Done {| isDirectory := is_dir c |}, w).
Proof. unfold lstatSync, statSync. by intros ->. Qed.

Lemma unlinkSync_file p w s :
  walk p (root w) = Ok (File s) →
  unlinkSync p w
  = (Done tt, {| root := remove p (root w); trace := trace w ++ [Unlink p] |}).
Proof. unfold unlinkSync. by intros ->. Qed.

Lemma rmdirSync_empty p w :
  p ≠ [] →
  walk p (root w) = Ok (Dir []) →
  rmdirSync p w
  = (Done tt, {| root := remove p (root w); trace := trace w ++ [Rmdir p] |}).
Proof.
  unfold rmdirSync. intros Hp ->. by rewrite bool_decide_eq_false_2.
Qed.

Lemma walk_resolve dir n c es w :
  walk dir (root w) = Ok (Dir ((n, c) :: es)) →
  walk (resolve dir n) (root w) = Ok c.
Proof.
  intros Hw. unfold resolve. rewrite walk_app, Hw. simpl.
  by rewrite String.eqb_refl.
Qed.

Lemma resolve_not_root dir n : resolve dir n ≠ [].
Proof. unfold resolve. by destruct dir. Qed.

Lemma put_at_same p t c : walk p t = Ok c → put_at p c t = t.
Proof.
  revert t. induction p as [|n p IH]; intros t Hw; simpl in *.
  - by simplify_eq.
  - destruct t as [|es]; [done|].
    destruct (find_entry n es) as [x|] eqn:Hn; [|done].
    f_equal. rewrite (alter_entry_ext n _ id es x Hn) by (by apply IH).
    clear. induction es as [|[m y] es IH]; simpl; [done|].
    destruct (String.eqb m n); [done|]. by rewrite IH.
Qed.

(** The head entry of [dir] gone, the directory holds the other entries. *)
Lemma remove_head_entry dir n c es w :
  walk dir (root w) = Ok (Dir ((n, c) :: es)) →
  remove (resolve dir n) (root w) = put_at dir (Dir es) (root w).
Proof.
  intros Hw. rewrite (remove_resolve _ _ _ _ Hw). simpl.
  by rewrite String.eqb_refl.
Qed.

(** *** A run of the traversal under [emptyDir]

    With a budget that covers the height of the tree, the traversal
    returns, leaves the directory empty and has made the system calls of
    the post-order listing. *)
Lemma postOrderDirectoryTraverse_run fuel dir w es :
  walk dir (root w) = Ok (Dir es) →
  height (Dir es) ≤ fuel →
  postOrderDirectoryTraverse fuel dir
    (λ dir, rmdirSync dir) (λ file, unlinkSync file) w
  = (Done tt, {| root := put_at dir (Dir []) (root w);
                 trace := trace w ++ removals dir (Dir es) |}).
Proof.
  revert dir w es.
  induction fuel as [|fuel IH]; intros dir w es Hw Hfuel.
  { simpl in Hfuel. lia. }
  cbn [postOrderDirectoryTraverse]. unfold bind at 1.
  rewrite (readdirSync_dir _ _ _ Hw).
  revert w Hw Hfuel. induction es as [|[n c] es IHes]; intros w Hw Hfuel.
  { simpl. unfold ret. rewrite (put_at_same _ _ _ Hw), app_nil_r.
    by destruct w. }
  rewrite height_cons in Hfuel.
  assert (height c ≤ fuel ∧ height (Dir es) ≤ S fuel) as [Hc Hes] by lia.
  pose proof (walk_resolve _ _ _ _ _ Hw) as Hn.
  cbn [map fst for_each]. unfold bind at 1. unfold bind at 1.
  rewrite (lstatSync_found _ _ _ Hn). cbn [isDirectory].
  destruct c as [s|es']; cbn [is_dir].
  - rewrite (unlinkSync_file _ _ _ Hn), (remove_head_entry _ _ _ _ _ Hw).
    rewrite IHes; cbn [root trace]; [|by eapply walk_put_at|done].
    rewrite put_at_put_at, removals_cons. cbn [removal_of].
    by rewrite <- app_assoc.
  - unfold bind at 1. rewrite (IH _ _ _ Hn Hc).
    assert (walk (resolve dir n) (put_at (resolve dir n) (Dir []) (root w))
            = Ok (Dir [])) as Hn' by (by eapply walk_put_at).
    rewrite rmdirSync_empty; cbn [root trace];
      [|apply resolve_not_root|done].
    assert (walk dir (put_at (resolve dir n) (Dir []) (root w))
            = Ok (Dir ((n, Dir []) :: es))) as Hw'.
    { rewrite (put_at_resolve _ _ _ _ _ Hw). simpl.
      rewrite String.eqb_refl. by eapply walk_put_at. }
    rewrite (remove_resolve _ _ _ _ Hw'). simpl remove_entry.
    rewrite String.eqb_refl.
    rewrite (put_at_resolve _ _ _ _ _ Hw), put_at_put_at.
    rewrite IHes; cbn [root trace]; [|by eapply walk_put_at|done].
    rewrite put_at_put_at, removals_cons. cbn [removal_of].
    by rewrite <- !app_assoc.
Qed.

Lemma emptyDir_run fuel dir w es :
  lookup dir (root w) = Some (Dir es) →
  height (Dir es) ≤ fuel →
  emptyDir fuel dir w
  = (Done tt, {| root := put_at dir (Dir []) (root w);
                 trace := trace w ++ removals dir (Dir es) |}).
Proof.
  intros Hw%lookup_Some_walk Hfuel. unfold emptyDir, bind at 1, existsSync.
  rewrite Hw. simpl. by apply postOrderDirectoryTraverse_run.
Qed.

(** *** The post-order listing *)

Lemma node_nested_ind (P : node → Prop) :
  (∀ s, P (File s)) →
  (∀ es, Forall (λ e, P e.2) es → P (Dir es)) →
  ∀ t, P t.
Proof.
  intros HFile HDir. fix IH 1. intros [s|es]; [apply HFile|].
  apply HDir. induction es as [|[n c] es IHes]; constructor.
  - apply IH.
  - apply IHes.
Qed.

Lemma well_formed_cons (n : name) c es :
  well_formed (Dir ((n, c) :: es)) = true
  ↔ (n ∉ map fst es) ∧ well_formed c = true ∧ well_formed (Dir es) = true.
Proof.
  cbn [well_formed map fst].
  rewrite !andb_true_iff, !bool_decide_eq_true, NoDup_cons. tauto.
Qed.

Lemma removal_of_target dir n c e :
  e ∈ removal_of dir n c (removals (resolve dir n) c) →
  (∀ e', e' ∈ removals (resolve dir n) c →
     ∃ m r, target e' = resolve dir n ++ m :: r ∧ e' ≠ Mkdir (target e')) →
  ∃ r, target e = dir ++ n :: r ∧ e ≠ Mkdir (target e).
Proof.
  unfold removal_of, resolve. intros He Hbelow. destruct c as [s|es].
  - apply list_elem_of_singleton in He as ->. exists []. by split.
  - apply elem_of_app in He as [He|He].
    + destruct (Hbelow _ He) as (m & r & Heq & Hne).
      exists (m :: r). split; [|done]. by rewrite Heq, <- app_assoc.
    + apply list_elem_of_singleton in He as ->. exists []. by split.
Qed.

(** Every call of the listing removes something strictly below [dir],
    inside one of its entries. *)
Lemma removals_target t : ∀ dir e,
  e ∈ removals dir t →
  ∃ n r, target e = dir ++ n :: r ∧ e ≠ Mkdir (target e)
         ∧ (match t with Dir es => n ∈ map fst es | File _ => False end).
Proof.
  induction t as [s|es IH] using node_nested_ind; intros dir e He.
  { simpl in He. by apply elem_of_nil in He. }
  induction es as [|[n c] es IHes]; [simpl in He; by apply elem_of_nil in He|].
  apply Forall_cons in IH as [IHc IH].
  rewrite removals_cons in He. apply elem_of_app in He as [He|He].
  - apply removal_of_target in He as (r & Hr & Hne).
    + exists n, r. split_and!; [done..|]. by left.
    + intros e' He'. destruct (IHc _ _ He') as (m & r & ? & ? & _). eauto.
  - destruct (IHes IH He) as (m & r & ? & ? & ?).
    exists m, r. split_and!; [done..|]. by right.
Qed.

Lemma removal_of_listed dir n c es e :
  find_entry n es = Some c →
  e ∈ removal_of dir n c (removals (resolve dir n) c) →
  e ∈ removals dir (Dir es).
Proof.
  intros Hf He. induction es as [|[m x] es IH]; [done|].
  rewrite removals_cons, elem_of_app. simpl in Hf.
  destruct (String.eqb m n) eqn:Hmn.
  - apply String.eqb_eq in Hmn as ->. simplify_eq. by left.
  - right. by apply IH.
Qed.

(** Everything below [dir] is in the listing: a regular file with its
    [unlink], a directory with its [rmdir]. *)
Lemma removals_complete q : ∀ t dir c,
  q ≠ [] →
  lookup q t = Some c →
  (if is_dir c then Rmdir (dir ++ q) else Unlink (dir ++ q))
  ∈ removals dir t.
Proof.
  induction q as [|n q IH]; intros t dir c Hq Hl; [done|].
  rewrite lookup_cons in Hl. destruct t as [|es]; [done|].
  destruct (find_entry n es) as [x|] eqn:Hn; [|done]. simpl in Hl.
  eapply removal_of_listed; [done|].
  destruct q as [|m q].
  - rewrite lookup_nil in Hl. simplify_eq. unfold removal_of, resolve.
    destruct c; simpl; [by apply list_elem_of_singleton|].
    apply elem_of_app. right. by apply list_elem_of_singleton.
  - destruct x as [|es']; [done|]. unfold removal_of.
    apply elem_of_app. left.
    specialize (IH (Dir es') (resolve dir n) c).
    unfold resolve in *. rewrite <- app_assoc in IH. by apply IH.
Qed.

Lemma children_first_single e : children_first [e].
Proof.
  intros l1 d l2 Heq e' He'.
  destruct l1 as [|? [|? ?]]; simplify_eq/=. by apply elem_of_nil in He'.
Qed.

Lemma children_first_app l1 l2 :
  children_first l1 →
  children_first l2 →
  (∀ d e, Rmdir d ∈ l1 → e ∈ l2 → ¬ d `prefix_of` target e) →
  children_first (l1 ++ l2).
Proof.
  intros H1 H2 Hcross a d b Heq e He.
  apply List.app_eq_app in Heq as [l [[-> Hb]|[-> ->]]].
  - destruct l as [|x l]; simpl in Hb.
    + subst l2. by eapply (H2 []).
    + simplify_eq. apply elem_of_app in He as [He|He].
      * by eapply H1.
      * apply Hcross; [|done]. apply elem_of_app. right. by left.
  - eapply H2; [|done]. done.
Qed.

Lemma children_first_nil : children_first [].
Proof. intros [|? ?] d l2 Heq; by simplify_eq/=. Qed.

(** In a tree whose directories have entries of distinct names, the
    post-order listing is children first. *)
Lemma removals_children_first t : ∀ dir,
  well_formed t = true → children_first (removals dir t).
Proof.
  induction t as [s|es IH] using node_nested_ind; intros dir Hwf.
  { apply children_first_nil. }
  induction es as [|[n c] es IHes]; [apply children_first_nil|].
  apply Forall_cons in IH as [IHc IH].
  apply well_formed_cons in Hwf as (Hn & Hc & Hes).
  rewrite removals_cons. apply children_first_app.
  - unfold removal_of. destruct c as [s|es'].
    { apply children_first_single. }
    apply children_first_app; [by apply IHc|apply children_first_single|].
    intros d e Hd ->%list_elem_of_singleton.
    apply removals_target in Hd as (m & r & Hd & _). simpl in *. subst d.
    intros Hpre%prefix_length. rewrite !length_app in Hpre. simpl in Hpre. lia.
  - by apply IHes.
  - intros d e Hd He.
    apply removal_of_target in Hd as (r & Hd & _).
    2:{ intros e' He'.
        destruct (removals_target _ _ _ He') as (m & r & ? & ? & _). eauto. }
    apply removals_target in He as (m & r' & He & _ & Hm).
    simpl in Hd. rewrite Hd, He.
    intros Hpre%prefix_app_inv.
    pose proof (prefix_cons_inv_1 _ _ _ _ Hpre) as ->. done.
Qed.

Lemma lookup_put_at_off d : ∀ p new t,
  apart p d → lookup p (put_at d new t) = lookup p t.
Proof.
  induction d as [|n d IH]; intros p new t [Hpd Hdp].
  { destruct Hdp. apply prefix_nil. }
  destruct p as [|m p]; [destruct Hpd; apply prefix_nil|].
  destruct t as [|es]; [done|]. simpl. rewrite !lookup_cons, find_entry_alter.
  destruct (String.eqb n m) eqn:Hnm; [|done].
  apply String.eqb_eq in Hnm as <-.
  destruct (find_entry n es) as [x|]; [|done]. simpl.
  apply IH. split; intros Hpre; [apply Hpd|apply Hdp]; by apply prefix_cons.
Qed.

(** C6: [emptyDir] on an existing directory, with a budget that covers the
    height of its tree, returns; afterwards the directory is still there
    and its listing is empty, and nothing apart from it has changed.  The
    system calls made are [unlink]s and [rmdir]s strictly below the
    directory, one for everything that was below it; and where the entries
    of every directory have distinct names they come children first: after
    the [rmdir] of a directory no call acts at or below it. *)
Theorem emptyDir_removes_children_first fuel dir w es :
  lookup dir (root w) = Some (Dir es) →
  height (Dir es) ≤ fuel →
  ∃ evs,
    emptyDir fuel dir w
    = (Done tt, {| root := put_at dir (Dir []) (root w);
                   trace := trace w ++ evs |})
    ∧ readdirSync dir (emptyDir fuel dir w).2
      = (Done [], (emptyDir fuel dir w).2)
    ∧ (∀ p, apart p dir →
         lookup p (root (emptyDir fuel dir w).2) = lookup p (root w))
    ∧ (∀ e, e ∈ evs →
         ∃ n r, e = Unlink (dir ++ n :: r) ∨ e = Rmdir (dir ++ n :: r))
    ∧ (∀ q c, q ≠ [] → lookup (dir ++ q) (root w) = Some c →
         (if is_dir c then Rmdir (dir ++ q) else Unlink (dir ++ q)) ∈ evs)
    ∧ (well_formed (Dir es) = true → children_first evs).
Proof.
  intros Hl Hfuel. exists (removals dir (Dir es)).
  rewrite (emptyDir_run _ _ _ _ Hl Hfuel). cbn [fst snd root].
  apply lookup_Some_walk in Hl as Hw.
  split_and!.
  - done.
  - apply (readdirSync_dir _ _ []). cbn [root]. by eapply walk_put_at.
  - intros p Hp. by apply lookup_put_at_off.
  - intros e He. apply removals_target in He as (n & r & Ht & Hne & _).
    exists n, r. destruct e as [p|p|p]; simpl in *; subst; auto. done.
  - intros q c Hq Hc. apply removals_complete; [done|].
    by rewrite lookup_app, Hl in Hc.
  - apply removals_children_first.
Qed.

Lemma emptyDir_removes_children_first_witness :
  lookup ["t"] (root fs0) = Some (Dir [("a.txt", File "hello");
       ("_gitignore", File "node_modules");
       ("package.json", File "{version:1.0.0,deps:{a:1}}");
       ("node_modules", Dir [("leftover.txt", File "x")]);
       ("sub", Dir [("_b", File "c")])])
  ∧ ∃ evs,
      emptyDir 2 ["t"] fs0
      = (Done tt, {| root := put_at ["t"] (Dir []) (root fs0);
                     trace := trace fs0 ++ evs |})
      ∧ children_first evs.
Proof.
  split; [reflexivity|].
  destruct (emptyDir_removes_children_first 2 ["t"] fs0 _ eq_refl)
    as (evs & Hrun & _ & _ & _ & _ & Hord).
  - vm_compute. lia.
  - exists evs. split; [exact Hrun|]. apply Hord. reflexivity.
Defined.

(** ** The package name *)

Section PackageNameFacts.

Variable toLowerCase : jsstring → jsstring.

(** Text made of lower-case ASCII letters, digits, dashes and tildes is
    its own lower-casing. *)
Hypothesis toLowerCase_name_chars :
  ∀ s, Forall (λ c, isNameChar c = true) s → toLowerCase s = s.

Lemma name_char_not_space c : isNameChar c = true → isWhiteSpace c = false.
Proof.
  unfold isNameChar, isWhiteSpace. intros H.
  repeat (rewrite ?orb_true_iff, ?andb_true_iff, ?N.leb_le, ?N.eqb_eq in H).
  apply not_true_iff_false. intros H'.
  repeat (rewrite ?orb_true_iff, ?andb_true_iff, ?N.leb_le, ?N.eqb_eq in H').
  lia.
Qed.

Lemma name_char_not_dot c :
  isNameChar c = true → (c =? 46)%N || (c =? 95)%N = false.
Proof.
  unfold isNameChar. intros H.
  repeat (rewrite ?orb_true_iff, ?andb_true_iff, ?N.leb_le, ?N.eqb_eq in H).
  apply not_true_iff_false. intros H'.
  repeat (rewrite ?orb_true_iff, ?andb_true_iff, ?N.leb_le, ?N.eqb_eq in H').
  lia.
Qed.

Lemma replace_runs_from_name_chars in_run s :
  Forall (λ c, isNameChar c = true)
    (replace_runs_from (λ c, negb (isNameChar c)) in_run s).
Proof.
  revert in_run. induction s as [|c s IH]; intros in_run; simpl; [done|].
  destruct (isNameChar c) eqn:Hc; simpl.
  - by constructor.
  - destruct in_run; [done|]. by constructor.
Qed.

Lemma replace_runs_from_none cls s :
  Forall (λ c, cls c = false) s → replace_runs_from cls false s = s.
Proof.
  induction 1 as [|c s Hc _ IH]; simpl; [done|]. by rewrite Hc, IH.
Qed.

Lemma trimStart_name_chars s :
  Forall (λ c, isNameChar c = true) s → trimStart s = s.
Proof.
  destruct 1 as [|c s Hc _]; simpl; [done|].
  by rewrite (name_char_not_space _ Hc).
Qed.

Lemma trim_name_chars s :
  Forall (λ c, isNameChar c = true) s → trim s = s.
Proof.
  intros Hs. unfold trim, trimEnd. rewrite (trimStart_name_chars _ Hs).
  rewrite trimStart_name_chars by (by apply Forall_rev).
  apply rev_involutive.
Qed.

Lemma strip_name_chars s :
  Forall (λ c, isNameChar c = true) s → strip_leading_dot_or_underscore s = s.
Proof.
  destruct 1 as [|c s Hc _]; simpl; [done|].
  by rewrite (name_char_not_dot _ Hc).
Qed.

(** A name already made of name characters is left as it is. *)
Lemma toValidPackageName_fixes s :
  Forall (λ c, isNameChar c = true) s → toValidPackageName toLowerCase s = s.
Proof.
  intros Hs. unfold toValidPackageName, replace_runs.
  rewrite (trim_name_chars _ Hs), (toLowerCase_name_chars _ Hs).
  rewrite (replace_runs_from_none isWhiteSpace).
  2:{ eapply Forall_impl; [done|]. apply name_char_not_space. }
  rewrite (strip_name_chars _ Hs).
  apply replace_runs_from_none.
  eapply Forall_impl; [done|]. by intros c ->.
Qed.

(** C10: [toValidPackageName] is idempotent.  Its last step leaves only
    the code units of [[a-z0-9-~]], and on such a name no step does
    anything. *)
Theorem toValidPackageName_idempotent projectName :
  toValidPackageName toLowerCase (toValidPackageName toLowerCase projectName)
  = toValidPackageName toLowerCase projectName.
Proof.
  apply toValidPackageName_fixes.
  unfold toValidPackageName, replace_runs.
  apply replace_runs_from_name_chars.
Qed.

End PackageNameFacts.

Lemma ascii_toLowerCase_name_chars s :
  Forall (λ c, isNameChar c = true) s → ascii_toLowerCase s = s.
Proof.
  unfold ascii_toLowerCase.
  induction 1 as [|c s Hc _ IH]; simpl; [done|]. rewrite IH. f_equal.
  unfold isNameChar in Hc.
  repeat (rewrite ?orb_true_iff, ?andb_true_iff, ?N.leb_le, ?N.eqb_eq in Hc).
  destruct ((65 <=? c)%N && (c <=? 90)%N) eqn:Hup; [|done].
  rewrite andb_true_iff, !N.leb_le in Hup. lia.
Qed.

Lemma toValidPackageName_idempotent_witness :
  toValidPackageName ascii_toLowerCase
    (toValidPackageName ascii_toLowerCase (of_string "  _My  Project@Name! "))
  = toValidPackageName ascii_toLowerCase (of_string "  _My  Project@Name! ")
  ∧ toValidPackageName ascii_toLowerCase (of_string "  _My  Project@Name! ")
    = of_string "my-project-name-".
Proof.
  split.
  - apply (toValidPackageName_idempotent ascii_toLowerCase
             ascii_toLowerCase_name_chars).
  - reflexivity.
Defined.

(** ** Matching by derivatives *)

Section RegexFacts.

Implicit Types (r : regex) (s : jsstring) (c : N).

Lemma nullable_lang r : nullable r = true ↔ lang r [].
Proof.
  induction r as [| |cls|r1 IH1 r2 IH2|r1 IH1 r2 IH2|r IH]; simpl.
  - split; [done|]. inversion 1.
  - split; [constructor|done].
  - split; [done|]. inversion 1.
  - rewrite andb_true_iff, IH1, IH2. split.
    + intros [H1 H2]. by apply (lang_seq _ _ [] []).
    + inversion 1 as [| |? ? s1 s2 H1 H2 Hr Hs| | | |].
      apply app_eq_nil in Hs as [-> ->]. done.
  - rewrite orb_true_iff, IH1, IH2. split.
    + intros [?|?]; [by apply lang_alt_l|by apply lang_alt_r].
    + inversion 1; auto.
  - split; [constructor|done].
Qed.

(** A non-empty word of a starred pattern begins with a non-empty word
    of the pattern. *)
Lemma lang_star_cons r c s :
  lang (Star r) (c :: s) →
  ∃ s1 s2, s = s1 ++ s2 ∧ lang r (c :: s1) ∧ lang (Star r) s2.
Proof.
  intros H. remember (Star r) as r' eqn:Hr. remember (c :: s) as s' eqn:Hs.
  revert s Hs.
  induction H as [| | | | | |r0 s1 s2 H1 _ H2 IH2]; intros u Hu; try done.
  simplify_eq. destruct s1 as [|c1 s1]; simpl in Hu.
  - by apply IH2.
  - simplify_eq. by exists s1, s2.
Qed.

Lemma deriv_lang r : ∀ c s, lang (deriv c r) s ↔ lang r (c :: s).
Proof.
  induction r as [| |cls|r1 IH1 r2 IH2|r1 IH1 r2 IH2|r IH]; intros c s; simpl.
  - split; inversion 1.
  - split; inversion 1.
  - destruct (cls c) eqn:Hc; split; inversion 1; simplify_eq;
      try congruence; by constructor.
  - assert (lang (Seq (deriv c r1) r2) s ↔
            ∃ s1 s2, s = s1 ++ s2 ∧ lang r1 (c :: s1) ∧ lang r2 s2) as Hseq.
    { split.
      - inversion 1; simplify_eq. eexists _, _. by rewrite <- IH1.
      - intros (s1 & s2 & -> & H1 & H2). constructor; [by apply IH1|done]. }
    assert (lang (Seq r1 r2) (c :: s) ↔
            (lang r1 [] ∧ lang r2 (c :: s))
            ∨ ∃ s1 s2, s = s1 ++ s2 ∧ lang r1 (c :: s1) ∧ lang r2 s2) as Hcons.
    { split.
      - inversion 1 as [| |? ? s1 s2 H1 H2 Hr Hs| | | |]; simplify_eq.
        destruct s1 as [|c1 s1]; simpl in Hs; simplify_eq; [by left|].
        right. by exists s1, s2.
      - intros [[H1 H2]|(s1 & s2 & -> & H1 & H2)].
        + by apply (lang_seq _ _ [] (c :: s)).
        + by apply (lang_seq _ _ (c :: s1) s2). }
    rewrite Hcons, <- Hseq, <- nullable_lang, <- IH2.
    destruct (nullable r1); split.
    + inversion 1; simplify_eq; [by right|by left].
    + intros [[_ ?]|?]; [by apply lang_alt_r|by apply lang_alt_l].
    + by right.
    + by intros [[? _]|?].
  - split.
    + inversion 1; simplify_eq;
        [apply lang_alt_l; by apply IH1|apply lang_alt_r; by apply IH2].
    + inversion 1; simplify_eq;
        [apply lang_alt_l; by apply IH1|apply lang_alt_r; by apply IH2].
  - split.
    + inversion 1; simplify_eq.
      apply (lang_star_more _ (c :: _)); [by apply IH|done].
    + intros (s1 & s2 & -> & H1 & H2)%lang_star_cons.
      constructor; [by apply IH|done].
Qed.

(** The matcher decides the language. *)
Lemma matches_lang r s : matches r s = true ↔ lang r s.
Proof.
  revert r. induction s as [|c s IH]; intros r; simpl.
  - apply nullable_lang.
  - by rewrite IH, deriv_lang.
Qed.

Lemma lang_star_class cls s :
  lang (Star (Class cls)) s ↔ Forall (λ x, cls x = true) s.
Proof.
  split.
  - intros H. remember (Star (Class cls)) as r eqn:Hr.
    induction H as [| | | | | |r0 s1 s2 H1 _ H2 IH2]; simplify_eq; [done|].
    inversion H1; simplify_eq. constructor; [done|]. by apply IH2.
  - induction 1 as [|c s Hc _ IH]; [constructor|].
    apply (lang_star_more _ [c]); [by constructor|done].
Qed.

End RegexFacts.

Section PatternFacts.

Implicit Types (r : regex) (s : jsstring) (c : N).

Lemma lang_seq_iff r1 r2 s :
  lang (Seq r1 r2) s ↔ ∃ s1 s2, s = s1 ++ s2 ∧ lang r1 s1 ∧ lang r2 s2.
Proof.
  split.
  - inversion 1; simplify_eq. eauto.
  - intros (s1 & s2 & -> & H1 & H2). by constructor.
Qed.

Lemma lang_opt_iff r s : lang (Opt r) s ↔ lang r s ∨ s = [].
Proof.
  unfold Opt. split.
  - inversion 1 as [| | |? ? ? H1|? ? ? H1| |]; simplify_eq; [by left|].
    inversion H1. by right.
  - intros [?| ->]; [by apply lang_alt_l|apply lang_alt_r; constructor].
Qed.

Lemma lang_class_iff cls s : lang (Class cls) s ↔ ∃ c, s = [c] ∧ cls c = true.
Proof.
  split.
  - inversion 1; simplify_eq. eauto.
  - intros (c & -> & Hc). by constructor.
Qed.

Lemma lang_chr_iff k s : lang (Chr k) s ↔ s = [k].
Proof.
  unfold Chr. rewrite lang_class_iff. split.
  - intros (c & -> & ->%N.eqb_eq). done.
  - intros ->. exists k. by rewrite N.eqb_refl.
Qed.

Lemma lang_class_star_iff cls1 cls2 s :
  lang (Seq (Class cls1) (Star (Class cls2))) s
  ↔ ∃ c t, s = c :: t ∧ cls1 c = true ∧ Forall (λ x, cls2 x = true) t.
Proof.
  rewrite lang_seq_iff. split.
  - intros (s1 & s2 & -> & (c & -> & Hc)%lang_class_iff & H2%lang_star_class).
    by exists c, s2.
  - intros (c & t & -> & Hc & Hr). exists [c], t.
    split_and!; [done|by constructor|by apply lang_star_class].
Qed.

(** What [isValidPackageName] accepts: a name, or [@], a scope, [/] and
    a name. *)
Lemma isValidPackageName_accepts s :
  isValidPackageName s = true
  ↔ bare_name s
    ∨ ∃ scope name, s = 64%N :: scope ++ 47%N :: name
                    ∧ scope_name scope ∧ bare_name name.
Proof.
  unfold isValidPackageName, package_name_pattern, bare_name, scope_name.
  rewrite matches_lang, lang_seq_iff. split.
  - intros (s1 & s2 & -> & H1 & H2%lang_class_star_iff).
    apply lang_opt_iff in H1 as [H1| ->]; [|by left]. right.
    apply lang_seq_iff in H1 as (a & b & -> & ->%lang_chr_iff & H1).
    apply lang_seq_iff in H1
      as (h & t & -> & (c & -> & Hc)%lang_class_iff & H1).
    apply lang_seq_iff in H1
      as (m & e & -> & Hm%lang_star_class & ->%lang_chr_iff).
    exists (c :: m), s2. split_and!; [|by eauto|done].
    simpl. by rewrite <- !app_assoc.
  - intros [Hn|(scope & name & -> & (c & m & -> & Hc & Hm) & Hn)].
    + exists [], s. split_and!; [done| |by apply lang_class_star_iff].
      apply lang_opt_iff. by right.
    + exists (64%N :: (c :: m) ++ [47%N]), name. split_and!.
      * simpl. by rewrite <- app_assoc.
      * apply lang_opt_iff. left.
        apply (lang_seq _ _ [64%N]); [by apply lang_chr_iff|].
        apply (lang_seq _ _ [c]); [by constructor|].
        apply lang_seq; [by apply lang_star_class|by apply lang_chr_iff].
      * by apply lang_class_star_iff.
Qed.

Lemma name_char_name_tail c : isNameChar c = true → isNameTail c = true.
Proof. unfold isNameTail. by intros ->. Qed.

(** On text over [[a-z0-9-~]] the test only asks for a first code unit. *)
Lemma isValidPackageName_name_chars s :
  Forall (λ c, isNameChar c = true) s →
  (isValidPackageName s = true ↔ s ≠ []).
Proof.
  intros Hs. split.
  - by intros H ->.
  - intros Hne. apply isValidPackageName_accepts. left.
    destruct Hs as [|c r Hc Hr]; [done|]. exists c, r. split_and!; [done..|].
    eapply Forall_impl; [done|]. apply name_char_name_tail.
Qed.

End PatternFacts.

(** ** Package names: what the test accepts and what the repair gives *)

(** X1: [isValidPackageName] accepts exactly the strings that are a name,
    or [@], a scope, [/] and a name; a name is one code unit of
    [[a-z0-9-~]] followed by code units of [[a-z0-9-._~]], a scope one code
    unit of [[a-z0-9-*~]] followed by code units of [[a-z0-9-*._~]]. *)
Theorem isValidPackageName_scope_and_name s :
  isValidPackageName s = true
  ↔ bare_name s
    ∨ ∃ scope name, s = 64%N :: scope ++ 47%N :: name
                    ∧ scope_name scope ∧ bare_name name.
Proof. apply isValidPackageName_accepts. Qed.

Section Repair.

Variable toLowerCase : jsstring → jsstring.

(** X2: whatever the lower-casing does, every code unit of the result of
    [toValidPackageName] is one of [[a-z0-9-~]]. *)
Theorem toValidPackageName_only_name_chars projectName :
  Forall (λ c, isNameChar c = true) (toValidPackageName toLowerCase projectName).
Proof.
  unfold toValidPackageName, replace_runs. apply replace_runs_from_name_chars.
Qed.

(** X4: the name [toValidPackageName] proposes passes
    [isValidPackageName] exactly when it is not empty. *)
Theorem toValidPackageName_valid_unless_empty projectName :
  isValidPackageName (toValidPackageName toLowerCase projectName) = true
  ↔ toValidPackageName toLowerCase projectName ≠ [].
Proof.
  apply isValidPackageName_name_chars.
  unfold toValidPackageName, replace_runs. apply replace_runs_from_name_chars.
Qed.

Lemma replace_runs_nil cls s : replace_runs cls s = [] ↔ s = [].
Proof.
  unfold replace_runs. split; [|by intros ->].
  destruct s as [|c s]; [done|]. simpl. by destruct (cls c).
Qed.

Lemma replace_runs_single cls s c :
  c ≠ dash → cls c = false → (replace_runs cls s = [c] ↔ s = [c]).
Proof.
  unfold replace_runs. intros Hd Hc. split.
  - destruct s as [|c' s]; [done|]. simpl.
    destruct (cls c') eqn:Hc'; intros [= Hhead Hrest]; [by destruct Hd|].
    subst c'. by apply (replace_runs_nil cls) in Hrest as ->.
  - intros ->. simpl. by rewrite Hc.
Qed.

Lemma strip_nil s :
  strip_leading_dot_or_underscore s = []
  ↔ s = [] ∨ s = [46%N] ∨ s = [95%N].
Proof.
  split.
  - destruct s as [|c s]; [by left|]. simpl.
    destruct (c =? 46)%N eqn:H1; [apply N.eqb_eq in H1 as ->; naive_solver|].
    destruct (c =? 95)%N eqn:H2; [apply N.eqb_eq in H2 as ->; naive_solver|].
    done.
  - by intros [->|[->| ->]].
Qed.

(** X5: the proposed name is empty exactly when the trimmed, lower-cased
    input is empty, a single dot or a single underscore. *)
Theorem toValidPackageName_empty projectName :
  toValidPackageName toLowerCase projectName = []
  ↔ toLowerCase (trim projectName) = []
    ∨ toLowerCase (trim projectName) = [46%N]
    ∨ toLowerCase (trim projectName) = [95%N].
Proof.
  unfold toValidPackageName.
  rewrite replace_runs_nil, strip_nil, replace_runs_nil.
  by rewrite !replace_runs_single.
Qed.

(** Text made of lower-case ASCII letters, digits, dashes and tildes is
    its own lower-casing. *)
Hypothesis toLowerCase_name_chars :
  ∀ s, Forall (λ c, isNameChar c = true) s → toLowerCase s = s.

(** X3: the names [toValidPackageName] leaves as they are, are exactly
    the strings over [[a-z0-9-~]]. *)
Theorem toValidPackageName_fixed_points projectName :
  toValidPackageName toLowerCase projectName = projectName
  ↔ Forall (λ c, isNameChar c = true) projectName.
Proof.
  split.
  - intros <-. unfold toValidPackageName, replace_runs.
    apply replace_runs_from_name_chars.
  - by apply toValidPackageName_fixes.
Qed.

End Repair.

Lemma toValidPackageName_fixed_points_witness :
  toValidPackageName ascii_toLowerCase (of_string "my-app~2")
  = of_string "my-app~2"
  ∧ ¬ Forall (λ c, isNameChar c = true) (of_string "My App").
Proof.
  split.
  - apply (toValidPackageName_fixed_points ascii_toLowerCase
             ascii_toLowerCase_name_chars).
    vm_compute. repeat constructor.
  - intros H.
    apply (toValidPackageName_fixed_points ascii_toLowerCase
             ascii_toLowerCase_name_chars) in H.
    vm_compute in H. discriminate.
Defined.

(** ** More on the template renderer *)

Lemma alter_entry_id n es : alter_entry n id es = es.
Proof.
  induction es as [|[m x] es IH]; simpl; [done|].
  destruct (String.eqb m n); [done|]. by rewrite IH.
Qed.

(** [mkdir -p] of a directory that is there changes nothing. *)
Lemma mkdirp_existing d : ∀ t, dir_at d t = true → mkdirp d t = Ok t.
Proof.
  unfold dir_at.
  induction d as [|n d IH]; intros t Hd.
  - by destruct t.
  - destruct t as [|es]; [done|]. rewrite lookup_cons in Hd. simpl.
    destruct (find_entry n es) as [c|] eqn:Hn; [|done]. simpl in Hd.
    rewrite (IH _ Hd).
    by rewrite (alter_entry_ext n _ id es c Hn), alter_entry_id.
Qed.

Lemma mkdirp_makes_dir d : ∀ t t', mkdirp d t = Ok t' → dir_at d t' = true.
Proof.
  unfold dir_at.
  induction d as [|n d IH]; intros t t' Hmk.
  - destruct t; simpl in Hmk; by simplify_eq.
  - destruct t as [|es]; [done|]. simpl in Hmk. rewrite lookup_cons.
    destruct (find_entry n es) as [c|] eqn:Hn.
    + destruct (mkdirp d c) as [c'|] eqn:Hc; [|done]. simplify_eq.
      rewrite find_entry_alter, String.eqb_refl, Hn. simpl. by eapply IH.
    + destruct (mkdirp d (Dir [])) as [c'|] eqn:Hc; [|done]. simplify_eq.
      rewrite find_entry_snoc, Hn, String.eqb_refl. simpl. by eapply IH.
Qed.

(** A regular file on the way stops [mkdir -p]: [EEXIST] when it is the
    path itself, [ENOTDIR] when it is above it. *)
Lemma mkdirp_blocked q : ∀ d t c,
  q `prefix_of` d →
  lookup q t = Some (File c) →
  mkdirp d t = Err (if bool_decide (q = d) then EEXIST else ENOTDIR).
Proof.
  induction q as [|n q IH]; intros d t c Hpre Hl.
  - rewrite lookup_nil in Hl. simplify_eq. by destruct d.
  - destruct d as [|m d]; [by apply prefix_nil_not in Hpre|].
    pose proof (prefix_cons_inv_1 _ _ _ _ Hpre) as ->.
    apply prefix_cons_inv_2 in Hpre.
    rewrite lookup_cons in Hl. destruct t as [|es]; [done|]. simpl.
    destruct (find_entry m es) as [x|] eqn:Hm; [|done]. simpl in Hl.
    rewrite (IH _ _ _ Hpre Hl).
    destruct (bool_decide (q = d)) eqn:Hqd.
    + apply bool_decide_eq_true in Hqd as ->. by rewrite bool_decide_eq_true_2.
    + apply bool_decide_eq_false in Hqd.
      rewrite bool_decide_eq_false_2; [done|]. by intros [= ->].
Qed.

Lemma find_entry_in_listing n es c : find_entry n es = Some c → n ∈ map fst es.
Proof.
  induction es as [|[m x] es IH]; simpl; [done|].
  destruct (String.eqb m n) eqn:Hmn.
  - apply String.eqb_eq in Hmn as ->. intros _. by left.
  - intros H. right. by apply IH.
Qed.

Section Loops.

Variable R : world → world → Prop.
Hypothesis R_refl : ∀ w, R w w.
Hypothesis R_trans : ∀ w1 w2 w3, R w1 w2 → R w2 w3 → R w1 w3.

(** In a loop that returned, every round returned, from a world the loop
    had reached to a world the loop went on from. *)
Lemma for_each_done_round {A} (l : list A) (body : A → io unit) w w' x :
  (∀ y w1, y ∈ l → R w1 (body y w1).2) →
  for_each l body w = (Done tt, w') →
  x ∈ l →
  ∃ wi wj, R w wi ∧ body x wi = (Done tt, wj) ∧ R wj w'.
Proof.
  revert w. induction l as [|y l IH]; intros w Hbody Hrun Hx.
  { by apply elem_of_nil in Hx. }
  simpl in Hrun. unfold bind in Hrun.
  pose proof (Hbody y w (list_elem_of_here _ _)) as Hy.
  destruct (body y w) as [[[]| |] w1] eqn:Hyw; simplify_eq; simpl in Hy.
  assert (R w1 w') as Hrest.
  { replace w' with (for_each l body w1).2 by (by rewrite Hrun).
    apply for_each_rel; [done..|]. intros z w2 Hz. apply Hbody. by right. }
  apply elem_of_cons in Hx as [->|Hx].
  - exists w, w1. by split_and!.
  - destruct (IH w1) as (wi & wj & Hi & Hb & Hj); [|done..|].
    { intros z w2 Hz. apply Hbody. by right. }
    exists wi, wj. split_and!; [by eapply R_trans|done..].
Qed.

End Loops.

Lemma render_step_refl src w : render_step src w w.
Proof. split; [apply same_below_refl|apply only_dirs_added_refl]. Qed.

Lemma render_step_trans src w1 w2 w3 :
  render_step src w1 w2 → render_step src w2 w3 → render_step src w1 w3.
Proof.
  intros [? ?] [? ?].
  split; [by eapply same_below_trans|by eapply only_dirs_added_trans].
Qed.

Lemma renderTemplate_render_step src0 fuel src dest w :
  apart src0 dest → render_step src0 w (renderTemplate fuel src dest w).2.
Proof.
  split; [by apply renderTemplate_same_below|apply renderTemplate_only_dirs].
Qed.

Lemma mkdirSync_recursive_done d w w' :
  mkdirSync_recursive d w = (Done tt, w') →
  mkdirp d (root w) = Ok (root w') ∧ trace w' = trace w ++ [Mkdir d].
Proof.
  unfold mkdirSync_recursive. destruct (mkdirp d (root w)); intros H;
    by simplify_eq.
Qed.

(** One unfolding of a run that returned from a directory: the [mkdir]
    returned and so did the loop over the entries. *)
Lemma renderTemplate_done_dir fuel src dest w w' es :
  walk src (root w) = Ok (Dir es) →
  basename src ≠ "node_modules" →
  apart src dest →
  renderTemplate (S fuel) src dest w = (Done tt, w') →
  ∃ w1, mkdirSync_recursive dest w = (Done tt, w1)
        ∧ walk src (root w1) = Ok (Dir es)
        ∧ for_each (map fst es)
            (λ file, renderTemplate fuel (resolve src file) (resolve dest file))
            w1 = (Done tt, w').
Proof.
  intros Hw Hb%String.eqb_neq Hap Hrun. simpl in Hrun.
  unfold bind at 1 in Hrun. unfold statSync in Hrun.
  rewrite Hw in Hrun. simpl in Hrun. rewrite Hb in Hrun.
  unfold bind at 1 in Hrun.
  pose proof (mkdirSync_recursive_same_below src dest w (proj1 Hap)) as Hmk.
  destruct (mkdirSync_recursive dest w) as [[[]| |] w1] eqn:Hmkeq;
    simplify_eq; simpl in Hmk.
  assert (walk src (root w1) = Ok (Dir es)) as Hw1.
  { apply lookup_Some_walk. rewrite (Hmk src) by done.
    by apply lookup_Some_walk. }
  exists w1. split_and!; [done..|].
  unfold bind at 1 in Hrun. by rewrite (readdirSync_dir _ _ _ Hw1) in Hrun.
Qed.

Lemma renderTemplate_mirrors fuel : ∀ src dest w w' q,
  apart src dest →
  basename src ≠ "node_modules" →
  renderTemplate fuel src dest w = (Done tt, w') →
  "node_modules" ∉ q →
  dir_at (src ++ q) (root w) = true →
  dir_at (dest ++ q) (root w') = true.
Proof.
  induction fuel as [|fuel IH]; intros src dest w w' q Hap Hb Hrun Hq Hd;
    [done|].
  assert (∃ es, walk src (root w) = Ok (Dir es)
                ∧ dir_at q (Dir es) = true) as (es & Hw & Hqes).
  { unfold dir_at in *. rewrite lookup_app in Hd.
    destruct (lookup src (root w)) as [[c|es]|] eqn:Hl; simpl in Hd.
    - by destruct q.
    - exists es. by apply lookup_Some_walk in Hl.
    - done. }
  destruct (renderTemplate_done_dir _ _ _ _ _ _ Hw Hb Hap Hrun)
    as (w1 & Hmk & Hw1 & Hloop).
  assert (∀ file w2, file ∈ map fst es →
            render_step src w2
              (renderTemplate fuel (resolve src file) (resolve dest file) w2).2)
    as Hbody.
  { intros file w2 _. apply renderTemplate_render_step.
    by apply apart_resolve_r. }
  destruct q as [|n q].
  - rewrite app_nil_r.
    assert (render_step src w1 w') as [_ (_ & Hdirs & _)].
    { replace w' with (for_each (map fst es)
        (λ file, renderTemplate fuel (resolve src file) (resolve dest file))
        w1).2 by (by rewrite Hloop).
      apply for_each_rel;
        [apply render_step_refl|apply render_step_trans|done]. }
    apply Hdirs. apply mkdirSync_recursive_done in Hmk as [Hmk _].
    by eapply mkdirp_makes_dir.
  - unfold dir_at in Hqes. rewrite lookup_cons in Hqes.
    destruct (find_entry n es) as [c|] eqn:Hn; [|done]. simpl in Hqes.
    apply not_elem_of_cons in Hq as [Hnm Hq].
    destruct (for_each_done_round (render_step src) (render_step_refl _)
                (render_step_trans _) _ _ _ _ n Hbody Hloop)
      as (wi & wj & [Hsrc _] & Hround & [_ (_ & Hdirs & _)]).
    { by eapply find_entry_in_listing. }
    apply Hdirs.
    replace (dest ++ n :: q) with (resolve dest n ++ q)
      by (unfold resolve; by rewrite <- app_assoc).
    eapply (IH (resolve src n)); [by apply apart_resolve| |done..|].
    { rewrite basename_resolve. congruence. }
    unfold dir_at, resolve. rewrite <- app_assoc.
    rewrite Hsrc by (by apply prefix_app_r).
    apply lookup_Some_walk in Hw1. rewrite lookup_app, Hw1. simpl.
    by rewrite lookup_cons, Hn.
Qed.

(** A run that returned, run once more in a world with the same source
    and at least the directories of the result, returns with the tree as
    it was. *)
Lemma renderTemplate_again fuel : ∀ src dest w w1 v,
  apart src dest →
  renderTemplate fuel src dest w = (Done tt, w1) →
  same_below src w v →
  (∀ p, dir_at p (root w1) = true → dir_at p (root v) = true) →
  ∃ v', renderTemplate fuel src dest v = (Done tt, v') ∧ root v' = root v.
Proof.
  induction fuel as [|fuel IH]; intros src dest w w1 v Hap Hrun Hv Hdirs;
    [done|].
  destruct (walk src (root w)) as [t|e] eqn:Hw.
  2:{ by rewrite (renderTemplate_missing _ _ _ _ _ Hw) in Hrun. }
  assert (walk src (root v) = Ok t) as Hwv.
  { apply lookup_Some_walk. rewrite (Hv src) by done.
    by apply lookup_Some_walk. }
  destruct t as [c|es].
  { exists v. split; [|done]. eapply renderTemplate_file.
    by apply lookup_Some_walk. }
  destruct (String.eqb (basename src) "node_modules") eqn:Hb.
  { exists v. split; [|done]. apply renderTemplate_node_modules.
    - by apply String.eqb_eq.
    - unfold dir_at. apply lookup_Some_walk in Hwv. by rewrite Hwv. }
  apply String.eqb_neq in Hb.
  destruct (renderTemplate_done_dir _ _ _ _ _ _ Hw Hb Hap Hrun)
    as (wa & Hmk & Hwa & Hloop).
  pose proof (mkdirSync_recursive_same_below src dest w (proj1 Hap)) as Hsa.
  rewrite Hmk in Hsa. simpl in Hsa.
  assert (∀ file w2,
            render_step src w2
              (renderTemplate fuel (resolve src file) (resolve dest file) w2).2)
    as Hbody.
  { intros file w2. apply renderTemplate_render_step.
    by apply apart_resolve_r. }
  assert (∀ l wb, for_each l
            (λ file, renderTemplate fuel (resolve src file) (resolve dest file))
            wb = (Done tt, w1) → render_step src wb w1) as Hto.
  { intros l wb Hl.
    replace w1 with (for_each l
      (λ file, renderTemplate fuel (resolve src file) (resolve dest file))
      wb).2 by (by rewrite Hl).
    apply for_each_rel;
      [apply render_step_refl|apply render_step_trans|by intros]. }
  (* the [mkdir] of the destination finds it there *)
  assert (mkdirp dest (root v) = Ok (root v)) as Hmkv.
  { apply mkdirp_existing, Hdirs.
    destruct (Hto _ _ Hloop) as [_ (_ & Hd & _)]. apply Hd.
    apply mkdirSync_recursive_done in Hmk as [Hmk _].
    by eapply mkdirp_makes_dir. }
  set (va := {| root := root v; trace := trace v ++ [Mkdir dest] |}).
  assert (same_below src wa va) as Hva.
  { intros p Hp. simpl. by rewrite Hv, Hsa. }
  assert (∃ v', for_each (map fst es)
            (λ file, renderTemplate fuel (resolve src file) (resolve dest file))
            va = (Done tt, v') ∧ root v' = root va) as (v' & Hv' & Hroot).
  { assert (∀ p, dir_at p (root w1) = true → dir_at p (root va) = true)
      as Hdva by done.
    clearbody va. clear Hmkv Hwv Hv Hdirs Hsa Hmk Hwa Hrun Hw.
    revert wa va Hloop Hva Hdva.
    induction (map fst es) as [|file l IHl]; intros wa va Hloop Hva Hdva.
    { exists va. done. }
    simpl in Hloop. unfold bind in Hloop.
    pose proof (Hbody file wa) as [Hwab _].
    destruct (renderTemplate fuel (resolve src file) (resolve dest file) wa)
      as [[[]| |] wb] eqn:Hround; simplify_eq; simpl in Hwab.
    destruct (IH _ _ _ _ va (apart_resolve _ _ file Hap) Hround)
      as (vb & Hvb & Hrvb).
    { intros p Hp. apply Hva. etrans; [|done]. by apply prefix_app_r. }
    { intros p Hp. apply Hdva.
      destruct (Hto _ _ Hloop) as [_ (_ & Hd & _)]. by apply Hd. }
    destruct (IHl wb vb Hloop) as (v' & Hv' & Hrv').
    { intros p Hp. by rewrite Hrvb, Hva, Hwab. }
    { by rewrite Hrvb. }
    exists v'. split; [|by rewrite Hrv'].
    simpl. unfold bind. by rewrite Hvb. }
  exists v'. split; [|done].
  simpl. unfold bind at 1. unfold statSync. rewrite Hwv. simpl.
  apply String.eqb_neq in Hb. rewrite Hb.
  unfold bind at 1. unfold mkdirSync_recursive at 1. rewrite Hmkv.
  unfold bind at 1. rewrite (readdirSync_dir _ _ es) by done.
  done.
Qed.

Lemma apart_t_d : apart ["t"] ["d"].
Proof. split; intros Hpre; apply prefix_cons_inv_1 in Hpre; discriminate. Qed.

(** X6: in every run of [renderTemplate], whatever its outcome, a path
    that is neither above the destination nor at or below it holds after
    the run the node it held before. *)
Theorem renderTemplate_keeps_what_is_apart fuel src dest w p :
  apart p dest →
  lookup p (root (renderTemplate fuel src dest w).2) = lookup p (root w).
Proof.
  intros [Hpd Hdp].
  apply (renderTemplate_rel (same_at p) (same_at_refl _) (same_at_trans _)
           (λ _ d, dest `prefix_of` d)); [| |done].
  - intros _ d w1 Hd _. apply mkdirSync_recursive_same_at.
    intros Hp. by destruct (prefix_weak_total _ _ _ Hp Hd).
  - intros _ d file Hd _. unfold resolve. by apply prefix_app_r.
Qed.

Lemma renderTemplate_keeps_what_is_apart_witness :
  apart ["t"; "sub"] ["d"]
  ∧ lookup ["t"; "sub"] (root (renderTemplate 5 ["t"] ["d"] fs0).2)
    = lookup ["t"; "sub"] (root fs0).
Proof.
  assert (apart ["t"; "sub"] ["d"]) as Hap.
  { split; intros Hpre; apply prefix_cons_inv_1 in Hpre; discriminate. }
  split; [exact Hap|].
  apply (renderTemplate_keeps_what_is_apart 5 ["t"] ["d"] fs0 _ Hap).
Defined.

(** X7: when source and destination are apart and the run returns from a
    source that is not named [node_modules], every directory of the source
    tree reached through no component [node_modules] is a directory at the
    same relative path of the destination. *)
Theorem renderTemplate_copies_directories fuel src dest w w' q :
  apart src dest →
  basename src ≠ "node_modules" →
  renderTemplate fuel src dest w = (Done tt, w') →
  "node_modules" ∉ q →
  dir_at (src ++ q) (root w) = true →
  dir_at (dest ++ q) (root w') = true.
Proof. apply renderTemplate_mirrors. Qed.

Lemma renderTemplate_copies_directories_witness :
  renderTemplate 5 ["t"] ["d"] fs0
  = (Done tt, (renderTemplate 5 ["t"] ["d"] fs0).2)
  ∧ dir_at (["t"] ++ ["sub"]) (root fs0) = true
  ∧ dir_at (["d"] ++ ["sub"]) (root (renderTemplate 5 ["t"] ["d"] fs0).2) = true.
Proof.
  split; [reflexivity|]. split; [reflexivity|].
  apply (renderTemplate_copies_directories 5 ["t"] ["d"] fs0 _ ["sub"]
           apart_t_d).
  - discriminate.
  - reflexivity.
  - intros [H|H]%elem_of_cons; [discriminate|by apply elem_of_nil in H].
  - reflexivity.
Defined.

(** X8: when source and destination are apart and a run returns, the
    same call made again returns too and leaves the tree as the first run
    left it. *)
Theorem renderTemplate_twice fuel src dest w w1 :
  apart src dest →
  renderTemplate fuel src dest w = (Done tt, w1) →
  ∃ w2, renderTemplate fuel src dest w1 = (Done tt, w2) ∧ root w2 = root w1.
Proof.
  intros Hap Hrun. eapply renderTemplate_again; [done..| |done].
  replace w1 with (renderTemplate fuel src dest w).2 by (by rewrite Hrun).
  by apply renderTemplate_same_below.
Qed.

Lemma renderTemplate_twice_witness :
  renderTemplate 5 ["t"] ["d"] fs0
  = (Done tt, (renderTemplate 5 ["t"] ["d"] fs0).2)
  ∧ ∃ w2, renderTemplate 5 ["t"] ["d"] (renderTemplate 5 ["t"] ["d"] fs0).2
          = (Done tt, w2)
          ∧ root w2 = root (renderTemplate 5 ["t"] ["d"] fs0).2.
Proof.
  split; [reflexivity|].
  apply (renderTemplate_twice 5 ["t"] ["d"] fs0 _ apart_t_d). reflexivity.
Defined.

(** X9: when the source is a directory not named [node_modules] and a
    regular file sits at the destination path or above it, the call throws
    with nothing changed: [EEXIST] for a file at the destination itself,
    [ENOTDIR] for a file above it. *)
Theorem renderTemplate_destination_blocked fuel src dest w es q c :
  lookup src (root w) = Some (Dir es) →
  basename src ≠ "node_modules" →
  q `prefix_of` dest →
  lookup q (root w) = Some (File c) →
  renderTemplate (S fuel) src dest w
  = (Throw (if bool_decide (q = dest) then EEXIST else ENOTDIR), w).
Proof.
  intros Hs%lookup_Some_walk Hb%String.eqb_neq Hq Hc. simpl.
  unfold bind at 1. unfold statSync. rewrite Hs. simpl. rewrite Hb.
  unfold bind at 1. unfold mkdirSync_recursive.
  by rewrite (mkdirp_blocked _ _ _ _ Hq Hc).
Qed.

Lemma renderTemplate_destination_blocked_witness :
  lookup ["t"] (root fs0) = Some template_tree
  ∧ lookup ["t"; "a.txt"] (root fs0) = Some (File "hello")
  ∧ renderTemplate 1 ["t"] ["t"; "a.txt"] fs0 = (Throw EEXIST, fs0)
  ∧ renderTemplate 1 ["t"] ["t"; "a.txt"; "x"] fs0 = (Throw ENOTDIR, fs0).
Proof.
  split; [reflexivity|]. split; [reflexivity|]. split.
  - eapply (renderTemplate_destination_blocked 0 ["t"] ["t"; "a.txt"] fs0
              _ ["t"; "a.txt"] "hello"); [reflexivity|discriminate|done|].
    reflexivity.
  - eapply (renderTemplate_destination_blocked 0 ["t"] ["t"; "a.txt"; "x"] fs0
              _ ["t"; "a.txt"] "hello"); [reflexivity|discriminate| |].
    + by exists ["x"].
    + reflexivity.
Defined.

(** ** The target directory of [init] *)

Section TargetFacts.

Implicit Types (n f : name) (p q d : path) (t c : node)
               (es : list (name * node)).

(** Where the plain [mkdir] succeeds it does what [mkdir -p] does. *)
Lemma mkdir_one_mkdirp d : ∀ t t', mkdir_one d t = Ok t' → mkdirp d t = Ok t'.
Proof.
  induction d as [|n d IH]; intros t t' Hmk.
  - by destruct t.
  - destruct t as [|es]; [done|]. simpl in *.
    destruct (find_entry n es) as [c|].
    + destruct (mkdir_one d c) as [c'|] eqn:Hc; [|done].
      by rewrite (IH _ _ Hc).
    + by destruct d.
Qed.

Lemma mkdir_one_new d n : ∀ t es,
  walk d t = Ok (Dir es) →
  find_entry n es = None →
  mkdir_one (d ++ [n]) t = Ok (put_at d (Dir (es ++ [(n, Dir [])])) t).
Proof.
  induction d as [|m d IH]; intros t es Hw Hn; simpl in *.
  - simplify_eq. by rewrite Hn.
  - destruct t as [|es0]; [done|].
    destruct (find_entry m es0) as [x|] eqn:Hm; [|done].
    rewrite (IH _ _ Hw Hn). do 2 f_equal.
    eapply alter_entry_ext; [done|]. done.
Qed.

Lemma mkdir_one_no_parent d n : ∀ t e,
  walk d t = Err e → mkdir_one (d ++ [n]) t = Err e.
Proof.
  induction d as [|m d IH]; intros t e Hw; simpl in *; [done|].
  destruct t as [|es0]; [done|].
  destruct (find_entry m es0) as [x|] eqn:Hm.
  - by rewrite (IH _ _ Hw).
  - simplify_eq. by destruct d.
Qed.

Lemma write_file_new d f data : ∀ t es,
  walk d t = Ok (Dir es) →
  find_entry f es = None →
  write_file (d ++ [f]) data t
  = Ok (put_at d (Dir (es ++ [(f, File data)])) t).
Proof.
  induction d as [|m d IH]; intros t es Hw Hf; simpl in *.
  - simplify_eq. by rewrite Hf.
  - destruct t as [|es0]; [done|].
    destruct (find_entry m es0) as [x|] eqn:Hm; [|done].
    rewrite (IH _ _ Hw Hf). do 2 f_equal.
    eapply alter_entry_ext; [done|]. done.
Qed.

(** A write succeeds where the parent is a directory and the path is
    no directory. *)
Lemma write_file_succeeds d f data : ∀ t es,
  walk d t = Ok (Dir es) →
  (∀ es', find_entry f es ≠ Some (Dir es')) →
  ∃ t', write_file (d ++ [f]) data t = Ok t'.
Proof.
  induction d as [|m d IH]; intros t es Hw Hf; simpl in *.
  - simplify_eq. destruct (find_entry f es) as [[s|es']|] eqn:Hfe; eauto.
    by destruct (Hf es').
  - destruct t as [|es0]; [done|].
    destruct (find_entry m es0) as [x|] eqn:Hm; [|done].
    destruct (IH _ _ Hw Hf) as [t' ->]. eauto.
Qed.

Lemma write_file_lookup d data : ∀ t t',
  write_file d data t = Ok t' → lookup d t' = Some (File data).
Proof.
  induction d as [|n d IH]; intros t t' Hwr.
  - destruct t; simpl in Hwr; by simplify_eq.
  - destruct t as [|es]; [done|]. simpl in Hwr. rewrite lookup_cons.
    destruct (find_entry n es) as [c|] eqn:Hn.
    + destruct (write_file d data c) as [c'|] eqn:Hc; [|done]. simplify_eq.
      rewrite find_entry_alter, String.eqb_refl, Hn. simpl. by eapply IH.
    + destruct d; [|done]. simplify_eq.
      by rewrite find_entry_snoc, Hn, String.eqb_refl.
Qed.

Lemma write_file_lookup_off d data : ∀ t t' p,
  write_file d data t = Ok t' → ¬ p `prefix_of` d →
  lookup p t' = lookup p t.
Proof.
  induction d as [|n d IH]; intros t t' p Hwr Hp.
  - destruct t; simpl in Hwr; simplify_eq.
    destruct p as [|m p]; [by destruct Hp|].
    (* below a regular file there is nothing, before and after *)
    by rewrite !lookup_cons.
  - destruct p as [|m p]; [destruct Hp; apply prefix_nil|].
    destruct t as [|es]; [done|]. simpl in Hwr. rewrite !lookup_cons.
    destruct (find_entry n es) as [c|] eqn:Hn.
    + destruct (write_file d data c) as [c'|] eqn:Hc; [|done]. simplify_eq.
      rewrite find_entry_alter.
      destruct (String.eqb n m) eqn:Hnm; [|done].
      apply String.eqb_eq in Hnm as <-. rewrite Hn. simpl.
      eapply IH; [done|]. intros Hpre. apply Hp. by apply prefix_cons.
    + destruct d; [|done]. simplify_eq. rewrite find_entry_snoc.
      destruct (find_entry m es) eqn:Hm; [done|].
      destruct (String.eqb n m) eqn:Hnm; [|done]. simpl.
      apply String.eqb_eq in Hnm as <-.
      destruct p as [|k p]; [|done].
      destruct Hp. done.
Qed.

End TargetFacts.

Lemma write_file_file_at d data : ∀ t t' p,
  write_file d data t = Ok t' → p ≠ d → file_at p t' = file_at p t.
Proof.
  unfold file_at.
  induction d as [|n d IH]; intros t t' p Hwr Hp.
  - destruct t; simpl in Hwr; simplify_eq. destruct p; [done|].
    by rewrite !lookup_cons.
  - destruct t as [|es]; [done|]. simpl in Hwr.
    destruct p as [|m p].
    { destruct (find_entry n es); [destruct (write_file d _ _)|destruct d];
        by simplify_eq. }
    rewrite !lookup_cons.
    destruct (find_entry n es) as [c|] eqn:Hn.
    + destruct (write_file d data c) as [c'|] eqn:Hc; [|done]. simplify_eq.
      rewrite find_entry_alter.
      destruct (String.eqb n m) eqn:Hnm; [|done].
      apply String.eqb_eq in Hnm as <-. rewrite Hn. simpl.
      eapply IH; [done|]. by intros ->.
    + destruct d; [|done]. simplify_eq. rewrite find_entry_snoc.
      destruct (find_entry m es) eqn:Hm; [done|].
      destruct (String.eqb n m) eqn:Hnm; [|done]. simpl.
      apply String.eqb_eq in Hnm as <-. destruct p; [done|].
      by rewrite lookup_cons.
Qed.

Lemma write_file_dir_at d data : ∀ t t' p,
  write_file d data t = Ok t' → dir_at p t = true → dir_at p t' = true.
Proof.
  unfold dir_at.
  induction d as [|n d IH]; intros t t' p Hwr.
  - destruct t; simpl in Hwr; simplify_eq. destruct p; [done|].
    by rewrite !lookup_cons.
  - destruct t as [|es]; [done|]. simpl in Hwr.
    destruct p as [|m p].
    { destruct (find_entry n es); [destruct (write_file d _ _)|destruct d];
        by simplify_eq. }
    rewrite !lookup_cons.
    destruct (find_entry n es) as [c|] eqn:Hn.
    + destruct (write_file d data c) as [c'|] eqn:Hc; [|done]. simplify_eq.
      rewrite find_entry_alter.
      destruct (String.eqb n m) eqn:Hnm; [|done].
      apply String.eqb_eq in Hnm as <-. rewrite Hn. simpl. by eapply IH.
    + destruct d; [|done]. simplify_eq. rewrite find_entry_snoc.
      by destruct (find_entry m es) eqn:Hm.
Qed.

Lemma kept_except_refl d w : kept_except d w w.
Proof. by split. Qed.

Lemma kept_except_trans d w1 w2 w3 :
  kept_except d w1 w2 → kept_except d w2 w3 → kept_except d w1 w3.
Proof. intros [Hf1 Hd1] [Hf2 Hd2]. split; eauto. Qed.

Lemma mkdirSync_kept d p w : kept_except d w (mkdirSync p w).2.
Proof.
  unfold mkdirSync.
  destruct (mkdir_one p (root w)) as [t|] eqn:Hmk; simpl;
    [|apply kept_except_refl].
  apply mkdir_one_mkdirp in Hmk. split; simpl.
  - intros q c _. by rewrite (mkdirp_file_at _ _ _ q Hmk).
  - intros q. by eapply mkdirp_dir_at.
Qed.

Lemma writeFileSync_kept d data w : kept_except d w (writeFileSync d data w).2.
Proof.
  unfold writeFileSync.
  destruct (write_file d data (root w)) as [t|] eqn:Hwr; simpl;
    [|apply kept_except_refl].
  split; simpl.
  - intros q c Hq. by rewrite (write_file_file_at _ _ _ _ q Hwr Hq).
  - intros q. by eapply write_file_dir_at.
Qed.

(** Without the leave to overwrite, [init_scaffold] removes nothing. *)
Lemma init_scaffold_kept fuel root manifest w :
  kept_except (resolve root "package.json") w
    (init_scaffold fuel root false manifest w).2.
Proof.
  unfold init_scaffold.
  apply bind_rel; [apply kept_except_trans| |intros _; apply writeFileSync_kept].
  apply bind_rel; [apply kept_except_trans|..].
  { rewrite existsSync_world. apply kept_except_refl. }
  intros ex. rewrite existsSync_world, andb_false_r.
  apply bind_rel; [apply kept_except_trans|..].
  { rewrite existsSync_world. apply kept_except_refl. }
  intros ex'. rewrite existsSync_world.
  destruct (negb ex'); [apply mkdirSync_kept|apply kept_except_refl].
Qed.

Lemma existsSync_missing p w :
  lookup p (root w) = None → existsSync p w = (Done false, w).
Proof.
  intros [e He]%lookup_walk. unfold existsSync. by rewrite He.
Qed.

Lemma existsSync_found p w c :
  lookup p (root w) = Some c → existsSync p w = (Done true, w).
Proof.
  intros Hw%lookup_Some_walk. unfold existsSync. by rewrite Hw.
Qed.

(** X10: when the target is missing and its parent is a directory,
    [init_scaffold] returns, whatever [shouldOverwrite] is; the target is
    then a directory whose one entry is [package.json] with the manifest
    as its content, and every path apart from the target holds what it
    held. *)
Theorem init_scaffold_makes_target fuel parent n shouldOverwrite manifest w es :
  lookup parent (root w) = Some (Dir es) →
  find_entry n es = None →
  ∃ w', init_scaffold fuel (resolve parent n) shouldOverwrite manifest w
        = (Done tt, w')
        ∧ lookup (resolve parent n) (root w')
          = Some (Dir [("package.json", File manifest)])
        ∧ ∀ p, apart p (resolve parent n) →
               lookup p (root w') = lookup p (root w).
Proof.
  intros Hl Hn. apply lookup_Some_walk in Hl as Hw.
  assert (lookup (resolve parent n) (root w) = None) as Hmiss.
  { unfold resolve. by rewrite lookup_app, Hl; simpl; rewrite lookup_cons, Hn. }
  pose proof (mkdir_one_new _ n _ _ Hw Hn) as Hmk.
  set (t1 := put_at parent (Dir (es ++ [(n, Dir [])])) (root w)) in *.
  assert (walk (resolve parent n) t1 = Ok (Dir [])) as Hw1.
  { unfold resolve, t1. rewrite walk_app, (walk_put_at _ _ _ _ Hw). simpl.
    by rewrite find_entry_snoc, Hn, String.eqb_refl. }
  pose proof (write_file_new _ "package.json" manifest _ _ Hw1 eq_refl) as Hwr.
  eexists. split_and!.
  - unfold init_scaffold, bind.
    rewrite (existsSync_missing _ _ Hmiss). simpl.
    rewrite (existsSync_missing _ _ Hmiss). simpl.
    unfold mkdirSync. fold (resolve parent n) in Hmk. rewrite Hmk.
    unfold writeFileSync. cbn [root trace].
    fold (resolve (resolve parent n) "package.json") in Hwr. rewrite Hwr.
    reflexivity.
  - cbn [root]. apply lookup_Some_walk. by eapply walk_put_at.
  - intros p Hp. cbn [root]. rewrite lookup_put_at_off by done.
    eapply mkdirp_lookup_off; [by apply mkdir_one_mkdirp|]. apply Hp.
Qed.

Lemma init_scaffold_makes_target_witness :
  lookup ["d"] (root fs0) = Some (Dir [("package.json", File "{name:x,deps:{b:2}}")])
  ∧ ∃ w', init_scaffold 0 (resolve ["d"] "app") true "{}" fs0 = (Done tt, w')
          ∧ lookup (resolve ["d"] "app") (root w')
            = Some (Dir [("package.json", File "{}")])
          ∧ ∀ p, apart p (resolve ["d"] "app") →
                 lookup p (root w') = lookup p (root fs0).
Proof.
  split; [reflexivity|].
  eapply (init_scaffold_makes_target 0 ["d"] "app" true "{}" fs0);
    reflexivity.
Defined.

(** X11: when the parent of the target does not resolve, [init_scaffold]
    throws what the plain [mkdir] throws, [ENOENT] or [ENOTDIR], and the
    world is as before: a target several levels deep is not made. *)
Theorem init_scaffold_needs_parent fuel parent n shouldOverwrite manifest w :
  lookup parent (root w) = None →
  ∃ e, init_scaffold fuel (resolve parent n) shouldOverwrite manifest w
       = (Throw e, w)
       ∧ NotFound e.
Proof.
  intros Hl. apply lookup_walk in Hl as Hw. destruct Hw as [e Hw].
  assert (lookup (resolve parent n) (root w) = None) as Hmiss.
  { unfold resolve. by rewrite lookup_app, Hl. }
  exists e. split; [|by eapply walk_error].
  unfold init_scaffold, bind.
  rewrite (existsSync_missing _ _ Hmiss). simpl.
  rewrite (existsSync_missing _ _ Hmiss). simpl.
  unfold mkdirSync, resolve. by rewrite (mkdir_one_no_parent _ _ _ _ Hw).
Qed.

Lemma init_scaffold_needs_parent_witness :
  lookup ["a"] (root fs0) = None
  ∧ ∃ e, init_scaffold 0 (resolve ["a"] "b") false "{}" fs0 = (Throw e, fs0)
         ∧ NotFound e.
Proof.
  split; [reflexivity|].
  apply (init_scaffold_needs_parent 0 ["a"] "b" false "{}" fs0). reflexivity.
Defined.

(** X12: without the leave to overwrite, [init_scaffold] removes nothing,
    whatever its outcome: every regular file other than the manifest keeps
    its content and every directory stays.  Where the target is a
    directory in which [package.json] is no directory, the call returns
    and the manifest holds the new text. *)
Theorem init_scaffold_keeps_entries fuel root manifest w :
  let r := init_scaffold fuel root false manifest w in
  (∀ p c, p ≠ resolve root "package.json" →
     file_at p (Fs.root w) = Some c → file_at p (Fs.root r.2) = Some c)
  ∧ (∀ p, dir_at p (Fs.root w) = true → dir_at p (Fs.root r.2) = true)
  ∧ (∀ es, lookup root (Fs.root w) = Some (Dir es) →
       (∀ es', find_entry "package.json" es ≠ Some (Dir es')) →
       r.1 = Done tt
       ∧ file_at (resolve root "package.json") (Fs.root r.2) = Some manifest).
Proof.
  destruct (init_scaffold_kept fuel root manifest w) as [Hf Hd].
  split_and!; [done..|]. intros es Hl Hpkg.
  apply lookup_Some_walk in Hl as Hw.
  destruct (write_file_succeeds _ "package.json" manifest _ _ Hw Hpkg)
    as [t' Hwr].
  unfold init_scaffold, bind.
  rewrite (existsSync_found _ _ _ Hl). simpl.
  rewrite (existsSync_found _ _ _ Hl). simpl.
  unfold writeFileSync. fold (resolve root "package.json") in Hwr.
  rewrite Hwr. simpl. split; [done|].
  unfold file_at. by rewrite (write_file_lookup _ _ _ _ Hwr).
Qed.

Lemma init_scaffold_keeps_entries_witness :
  file_at ["t"; "a.txt"] (root fs0) = Some "hello"
  ∧ file_at ["t"; "a.txt"]
      (root (init_scaffold 0 ["t"] false "{}" fs0).2) = Some "hello"
  ∧ (init_scaffold 0 ["t"] false "{}" fs0).1 = Done tt
  ∧ file_at (resolve ["t"] "package.json")
      (root (init_scaffold 0 ["t"] false "{}" fs0).2) = Some "{}".
Proof.
  split; [reflexivity|].
  pose proof (init_scaffold_keeps_entries 0 ["t"] "{}" fs0) as (Hf & _ & Hrun).
  split.
  - apply Hf; [discriminate|reflexivity].
  - eapply Hrun; [reflexivity|].
    intros es' H. vm_compute in H. discriminate.
Defined.

(** X13: without [--force], when the user answers no or is not asked,
    [init] removes nothing: every regular file other than the manifest of
    the target keeps its content and every directory stays.  And when
    [canSkipEmptying] does not answer [true], [init] leaves by
    [process.exit(1)] with the world untouched. *)
Theorem init_target_declined fuel targetDir root manifest w :
  let r := init_target fuel targetDir root false false manifest w in
  (∀ p c, p ≠ resolve root "package.json" →
     file_at p (Fs.root w) = Some c → file_at p (Fs.root r.2) = Some c)
  ∧ (∀ p, dir_at p (Fs.root w) = true → dir_at p (Fs.root r.2) = true)
  ∧ ((canSkipEmptying targetDir w).1 ≠ Done true → r = (Exit1, w)).
Proof.
  unfold init_target. rewrite canSkipEmptying_run.
  pose proof (init_scaffold_kept fuel root manifest w) as [Hf Hd].
  assert (∀ b : bool,
    let r := (let answer := if b || false then None else Some false in
              match answer with
              | Some false => (Exit1, w)
              | _ =>
                  let (o, w2) :=
                    init_scaffold fuel root (default false answer) manifest w
                  in (Scaffolded o, w2)
              end) in
    (∀ p c, p ≠ resolve root "package.json" →
       file_at p (Fs.root w) = Some c → file_at p (Fs.root r.2) = Some c)
    ∧ (∀ p, dir_at p (Fs.root w) = true → dir_at p (Fs.root r.2) = true)
    ∧ (Done b ≠ Done true → r = (Exit1, w))) as Hcase.
  { intros [|]; simpl.
    - destruct (init_scaffold fuel root false manifest w) as [o w2].
      by split_and!.
    - by split_and!. }
  destruct (lookup targetDir (Fs.root w)) as [[c|[|[n x] [|[m y] es]]]|];
    try apply Hcase.
  by split_and!.
Qed.

Lemma init_target_declined_witness :
  (canSkipEmptying ["t"] fs0).1 ≠ Done true
  ∧ init_target 5 ["t"] ["t"] false false "{}" fs0 = (Exit1, fs0).
Proof.
  assert ((canSkipEmptying ["t"] fs0).1 ≠ Done true) as H by discriminate.
  split; [exact H|].
  apply (proj2 (proj2 (init_target_declined 5 ["t"] ["t"] "{}" fs0)) H).
Defined.

(** ** A destination inside the source *)

Lemma dir_at_above p q t : dir_at (p ++ q) t = true → dir_at p t = true.
Proof.
  unfold dir_at. rewrite lookup_app.
  destruct (lookup p t) as [[c|es]|]; simpl; [|done..].
  by destruct q.
Qed.

Lemma dir_at_entries p t :
  dir_at p t = true → ∃ es, walk p t = Ok (Dir es).
Proof.
  unfold dir_at. destruct (lookup p t) as [[c|es]|] eqn:Hl; [done| |done].
  intros _. exists es. by apply lookup_Some_walk.
Qed.

Lemma renderTemplate_inside fuel : ∀ src r w,
  r ≠ [] →
  "node_modules" ∉ r →
  basename src ≠ "node_modules" →
  dir_at src (root w) = true →
  (renderTemplate fuel src (src ++ r) w).1 ≠ Done tt.
Proof.
  induction fuel as [|fuel IH]; intros src r w Hr Hnm Hb Hd; [done|].
  destruct r as [|a r]; [done|]. clear Hr.
  apply not_elem_of_cons in Hnm as [Ha Hnm].
  destruct (dir_at_entries _ _ Hd) as [es Hw].
  apply String.eqb_neq in Hb.
  simpl. unfold bind at 1. unfold statSync. rewrite Hw. simpl. rewrite Hb.
  unfold bind at 1.
  pose proof (mkdirSync_recursive_only_dirs (src ++ a :: r) w)
    as (_ & Hdirs & _).
  destruct (mkdirSync_recursive (src ++ a :: r) w) as [[[]| |] w1] eqn:Hmk;
    [|done..].
  simpl in Hdirs.
  apply mkdirSync_recursive_done in Hmk as [Hmk _].
  apply mkdirp_makes_dir in Hmk.
  assert (dir_at (resolve src a) (root w1) = true) as Hda.
  { unfold resolve. apply (dir_at_above _ r). by rewrite <- app_assoc. }
  destruct (dir_at_entries _ _ (Hdirs _ Hd)) as [es1 Hw1].
  unfold bind at 1. rewrite (readdirSync_dir _ _ _ Hw1).
  destruct (for_each (map fst es1) _ w1) as [[[]| |] w'] eqn:Hloop; [|done..].
  exfalso.
  destruct (for_each_done_round only_dirs_added only_dirs_added_refl
              only_dirs_added_trans _ _ _ _ a
              (λ file w2 _, renderTemplate_only_dirs fuel _ _ w2) Hloop)
    as (wi & wj & (_ & Hdi & _) & Hround & _).
  { unfold dir_at, resolve in Hda. apply lookup_Some_walk in Hw1.
    rewrite lookup_app, Hw1 in Hda. simpl in Hda. rewrite lookup_cons in Hda.
    destruct (find_entry a es1) as [c|] eqn:Hfa; [|done].
    by eapply find_entry_in_listing. }
  apply (IH (resolve src a) (r ++ [a]) wi).
  - by destruct r.
  - rewrite not_elem_of_app, not_elem_of_cons. split_and!; [done|congruence|].
    apply not_elem_of_nil.
  - rewrite basename_resolve. congruence.
  - by apply Hdi.
  - unfold resolve in *.
    replace ((src ++ [a]) ++ r ++ [a]) with ((src ++ a :: r) ++ [a])
      by (by rewrite <- !app_assoc).
    by rewrite Hround.
Qed.

(** X14: a destination strictly inside the source, on a path through no
    component [node_modules]: when the source is a directory not named
    [node_modules], no budget lets the run return; it throws or goes on
    for ever, making directories below the ones it has made. *)
Theorem renderTemplate_into_itself_never_returns fuel src r w :
  r ≠ [] →
  "node_modules" ∉ r →
  basename src ≠ "node_modules" →
  dir_at src (root w) = true →
  (renderTemplate fuel src (src ++ r) w).1 ≠ Done tt.
Proof. apply renderTemplate_inside. Qed.

Lemma renderTemplate_into_itself_never_returns_witness :
  dir_at ["t"] (root fs0) = true
  ∧ (renderTemplate 7 ["t"] (["t"] ++ ["sub"; "out"]) fs0).1 ≠ Done tt.
Proof.
  split; [reflexivity|].
  apply (renderTemplate_into_itself_never_returns 7 ["t"] ["sub"; "out"] fs0).
  - discriminate.
  - intros [H|[H|H]%elem_of_cons]%elem_of_cons;
      [discriminate..|by apply elem_of_nil in H].
  - discriminate.
  - reflexivity.
Defined.

(** ** The project name from the prompt *)

Lemma trimStart_head s :
  match trimStart s with c :: _ => isWhiteSpace c = false | [] => True end.
Proof.
  induction s as [|c s IH]; simpl; [done|].
  by destruct (isWhiteSpace c) eqn:Hc.
Qed.

Lemma trimStart_fixed s :
  match s with c :: _ => isWhiteSpace c = false | [] => True end →
  trimStart s = s.
Proof. destruct s as [|c s]; simpl; [done|]. by intros ->. Qed.

Lemma trimStart_snoc l c :
  isWhiteSpace c = false → ∃ x, trimStart (l ++ [c]) = x ++ [c].
Proof.
  intros Hc. induction l as [|a l IH]; simpl.
  - exists []. by rewrite Hc.
  - destruct (isWhiteSpace a); [done|]. by exists (a :: l).
Qed.

Lemma trimEnd_head s :
  match s with c :: _ => isWhiteSpace c = false | [] => True end →
  match trimEnd s with c :: _ => isWhiteSpace c = false | [] => True end.
Proof.
  unfold trimEnd. destruct s as [|c s]; [done|]. intros Hc. simpl.
  destruct (trimStart_snoc (rev s) c Hc) as [x ->].
  by rewrite rev_app_distr.
Qed.

(** White space is stripped once and for all. *)
Lemma trim_trim s : trim (trim s) = trim s.
Proof.
  unfold trim at 1.
  rewrite (trimStart_fixed (trim s)).
  2:{ unfold trim. apply trimEnd_head, trimStart_head. }
  unfold trim, trimEnd. rewrite rev_involutive.
  by rewrite (trimStart_fixed (trimStart _)) by apply trimStart_head.
Qed.

(** X15: the project name [onState] takes from the prompt is never empty
    and has no white space at either end; an answer that is empty or all
    white space gives [compo-kit-project], and that name passes
    [isValidPackageName]. *)
Theorem onState_project_name value :
  onState value ≠ []
  ∧ trim (onState value) = onState value
  ∧ (trim value = [] →
     onState value = defaultProjectName
     ∧ isValidPackageName (onState value) = true)
  ∧ (trim value ≠ [] → onState value = trim value).
Proof.
  unfold onState. pose proof (trim_trim value) as Htt.
  destruct (trim value) as [|c v] eqn:Ht.
  - split_and!; [done|by vm_compute|by vm_compute|done].
  - by split_and!.
Qed.

Lemma onState_project_name_witness :
  trim (of_string "   ") = []
  ∧ onState (of_string "   ") = defaultProjectName
  ∧ trim (of_string " my app ") ≠ []
  ∧ onState (of_string " my app ") = of_string "my app".
Proof.
  split; [reflexivity|].
  pose proof (onState_project_name (of_string "   ")) as (_ & _ & Hblank & _).
  split; [apply Hblank; reflexivity|].
  assert (trim (of_string " my app ") ≠ []) as Hne by discriminate.
  split; [exact Hne|].
  pose proof (onState_project_name (of_string " my app ")) as (_ & _ & _ & H).
  rewrite (H Hne). reflexivity.
Defined.
